(** * figma-desktop-cli: discovery, dispatch and the interactive loop

    A shallow embedding of
      - src/config (the three process-wide registry arrays),
      - src/cli/wrapper.ts (class [wrapper]: connect, discoverTools,
        handleCommand, runCommand, printHelp, start),
      - src/commands/runner.ts (the one-shot [runCommand]),
    together with the JavaScript built-ins those functions call
    (String.prototype.trim and split, Array.prototype.join and filter,
    JSON.parse, JSON.stringify on an object of strings).

    Strings are Rocq strings: one [ascii] stands for one UTF-16 code unit
    below 256.  Console output, readline calls, provider requests and
    process exit are recorded as a list of [event]s in program order; what
    the provider answers enters each function as an argument. *)

From Stdlib Require Import String Ascii List Bool Arith NArith Lia.
From Stdlib Require Import DecimalString.
Import ListNotations.

Open Scope string_scope.

(* ================================================================== *)
(** ** JavaScript strings *)

Module Js.

(** The double quote and the line feed, which string literals of this
    file do not spell out. *)
Definition dquote : string := String "034"%char EmptyString.
Definition nl : string := String "010"%char EmptyString.

(** WhiteSpace and LineTerminator code units below 256: TAB, LF, VT, FF,
    CR, SP and NBSP.  These are what [trim] strips. *)
Definition is_whitespace (c : ascii) : bool :=
  match N_of_ascii c with
  | 9 | 10 | 11 | 12 | 13 | 32 | 160 => true
  | _ => false
  end%N.

Fixpoint trimStart (s : string) : string :=
  match s with
  | EmptyString => EmptyString
  | String c r => if is_whitespace c then trimStart r else s
  end.

Fixpoint trimEnd (s : string) : string :=
  match s with
  | EmptyString => EmptyString
  | String c r =>
      match trimEnd r with
      | EmptyString => if is_whitespace c then EmptyString else String c EmptyString
      | r' => String c r'
      end
  end.

(** [s.trim()] *)
Definition trim (s : string) : string := trimEnd (trimStart s).

(** [s.split(sep)] for a separator of one character.  The result is never
    empty; two separators in a row give an empty piece. *)
Fixpoint split (sep : ascii) (s : string) : list string :=
  match s with
  | EmptyString => [EmptyString]
  | String c r =>
      if Ascii.eqb c sep then EmptyString :: split sep r
      else match split sep r with
           | p :: ps => String c p :: ps
           | [] => [String c EmptyString]
           end
  end.

(** [a.join(sep)] on an array of strings. *)
Definition join (sep : string) (a : list string) : string := String.concat sep a.

(** [a.filter(Boolean)] on an array whose entries are strings, [null] or
    [undefined]: the non-empty strings survive. *)
Fixpoint filter_Boolean (a : list (option string)) : list string :=
  match a with
  | [] => []
  | Some s :: r => if String.eqb s "" then filter_Boolean r else s :: filter_Boolean r
  | None :: r => filter_Boolean r
  end.

(** [x || d] where [x] is a string or [undefined]: the empty string is
    falsy as well. *)
Definition or_else (x : option string) (d : string) : string :=
  match x with
  | Some s => if String.eqb s "" then d else s
  | None => d
  end.

(** [a.includes(x)] on an array of strings. *)
Definition includes (a : list string) (x : string) : bool :=
  existsb (String.eqb x) a.

(** Template-literal rendering of a non-negative integer. *)
Definition of_nat (n : nat) : string := NilZero.string_of_uint (Nat.to_uint n).

(** The code units of a string. *)
Definition code_units (s : string) : list N := map N_of_ascii (list_ascii_of_string s).

End Js.

(* ================================================================== *)
(** ** JSON values and JSON.parse *)

Module Json.

(** A parsed JSON value.  A number keeps its literal (the program never
    computes with it); a string is its code units, as a \u escape may
    denote any of the 65536. *)
#[local] Unset Elimination Schemes.
Inductive json : Type :=
| JNull
| JBool (b : bool)
| JNumber (literal : list N)
| JString (units : list N)
| JArray (items : list json)
| JObject (members : list (list N * json)).
#[local] Set Elimination Schemes.

Fixpoint units_eqb (a b : list N) : bool :=
  match a, b with
  | [], [] => true
  | x :: a', y :: b' => N.eqb x y && units_eqb a' b'
  | _, _ => false
  end.

(** Defining property [k] on an object under construction: a repeated
    key keeps its place and takes the later value. *)
Fixpoint obj_set (k : list N) (v : json) (o : list (list N * json)) : list (list N * json) :=
  match o with
  | [] => [(k, v)]
  | (k', v') :: r => if units_eqb k k' then (k', v) :: r else (k', v') :: obj_set k v r
  end.

(** JSON white space: TAB, LF, CR, SP. *)
Definition is_ws (c : N) : bool :=
  ((c =? 9) || (c =? 10) || (c =? 13) || (c =? 32))%N.

Fixpoint skip_ws (s : list N) : list N :=
  match s with
  | c :: r => if is_ws c then skip_ws r else s
  | [] => []
  end.

Definition is_digit (c : N) : bool := ((48 <=? c) && (c <=? 57))%N.

Definition hex_value (c : N) : option N :=
  if is_digit c then Some (c - 48)%N
  else if ((97 <=? c) && (c <=? 102))%N then Some (c - 87)%N
  else if ((65 <=? c) && (c <=? 70))%N then Some (c - 55)%N
  else None.

Definition hex4 (a b c d : N) : option N :=
  match hex_value a, hex_value b, hex_value c, hex_value d with
  | Some x, Some y, Some z, Some w => Some (((x * 16 + y) * 16 + z) * 16 + w)%N
  | _, _, _, _ => None
  end.

(** The code unit a one-letter escape stands for: the quote, the
    backslash and the slash stand for themselves, then b, f, n, r, t. *)
Definition simple_escape (e : N) : option N :=
  if ((e =? 34) || (e =? 92) || (e =? 47))%N then Some e
  else if (e =? 98)%N then Some 8%N
  else if (e =? 102)%N then Some 12%N
  else if (e =? 110)%N then Some 10%N
  else if (e =? 114)%N then Some 13%N
  else if (e =? 116)%N then Some 9%N
  else None.

(** The characters of a string literal after its opening quote, up to and
    including the closing quote.  A backslash starts an escape, u with
    four hexadecimal digits among them; a control character is refused. *)
Fixpoint lex_string (s : list N) (acc : list N) : option (list N * list N) :=
  match s with
  | [] => None
  | c :: r =>
      if (c =? 34)%N then Some (rev acc, r)
      else if (c =? 92)%N then
        match r with
        | [] => None
        | e :: r1 =>
            if (e =? 117)%N then
              match r1 with
              | h1 :: h2 :: h3 :: h4 :: r2 =>
                  match hex4 h1 h2 h3 h4 with
                  | Some u => lex_string r2 (u :: acc)
                  | None => None
                  end
              | _ => None
              end
            else
              match simple_escape e with
              | Some u => lex_string r1 (u :: acc)
              | None => None
              end
        end
      else if (c <? 32)%N then None
      else lex_string r (c :: acc)
  end.

Fixpoint take_digits (s : list N) : list N * list N :=
  match s with
  | c :: r => if is_digit c then let (d, r') := take_digits r in (c :: d, r') else ([], s)
  | [] => ([], [])
  end.

(** The digits of the integer part: a lone 0, or a digit run that does
    not start with 0. *)
Definition lex_digits (s : list N) : option (list N * list N) :=
  match s with
  | c :: r =>
      if (c =? 48)%N then Some ([c], r)
      else if is_digit c then let (d, r') := take_digits r in Some (c :: d, r')
      else None
  | [] => None
  end.

(** The integer part: an optional minus, then the digits. *)
Definition lex_int (s : list N) : option (list N * list N) :=
  match s with
  | c :: r =>
      if (c =? 45)%N then
        match lex_digits r with
        | Some (d, r') => Some (c :: d, r')
        | None => None
        end
      else lex_digits s
  | [] => None
  end.

(** The optional fraction: a dot and at least one digit. *)
Definition lex_frac (s : list N) : option (list N * list N) :=
  match s with
  | c :: r =>
      if (c =? 46)%N then
        match take_digits r with
        | ([], _) => None
        | (d, r') => Some (c :: d, r')
        end
      else Some ([], s)
  | [] => Some ([], s)
  end.

(** The sign an exponent may carry. *)
Definition lex_sign (s : list N) : list N * list N :=
  match s with
  | c :: r => if ((c =? 43) || (c =? 45))%N then ([c], r) else ([], s)
  | [] => ([], s)
  end.

(** The optional exponent: e or E, an optional sign, at least one digit. *)
Definition lex_exp (s : list N) : option (list N * list N) :=
  match s with
  | e :: r =>
      if ((e =? 101) || (e =? 69))%N then
        let (sign, r1) := lex_sign r in
        match take_digits r1 with
        | ([], _) => None
        | (d, r') => Some ((e :: sign ++ d)%list, r')
        end
      else Some ([], s)
  | [] => Some ([], s)
  end.

Definition lex_number (s : list N) : option (list N * list N) :=
  match lex_int s with
  | None => None
  | Some (i, r1) =>
      match lex_frac r1 with
      | None => None
      | Some (f, r2) =>
          match lex_exp r2 with
          | None => None
          | Some (e, r3) => Some ((i ++ f ++ e)%list, r3)
          end
      end
  end.

(** The text after a given word, when it starts with that word. *)
Fixpoint after_word (word s : list N) : option (list N) :=
  match word, s with
  | [], _ => Some s
  | w :: word', c :: r => if (c =? w)%N then after_word word' r else None
  | _ :: _, [] => None
  end.

(** A value parser that leaves less text than it is given. *)
Definition consumes (pv : list N -> option (json * list N)) : Prop :=
  forall x v r, pv x = Some (v, r) -> length r < length x.

(** The elements of an array after the first value is due, up to the
    closing bracket; [pv] parses one value. *)
Fixpoint parse_elements (pv : list N -> option (json * list N)) (fuel : nat)
    (acc : list json) (s : list N) : option (json * list N) :=
  match fuel with
  | O => None
  | S fuel' =>
      match pv s with
      | None => None
      | Some (v, r) =>
          match skip_ws r with
          | c :: r' =>
              if (c =? 44)%N then parse_elements pv fuel' (v :: acc) r'
              else if (c =? 93)%N then Some (JArray (rev (v :: acc)), r')
              else None
          | [] => None
          end
      end
  end.

(** The members of an object after the first key is due, up to the
    closing brace. *)
Fixpoint parse_members (pv : list N -> option (json * list N)) (fuel : nat)
    (acc : list (list N * json)) (s : list N) : option (json * list N) :=
  match fuel with
  | O => None
  | S fuel' =>
      match skip_ws s with
      | q :: r =>
          if (q =? 34)%N then
            match lex_string r [] with
            | None => None
            | Some (k, r1) =>
                match skip_ws r1 with
                | colon :: r2 =>
                    if (colon =? 58)%N then
                      match pv r2 with
                      | None => None
                      | Some (v, r3) =>
                          match skip_ws r3 with
                          | c :: r4 =>
                              if (c =? 44)%N
                              then parse_members pv fuel' (obj_set k v acc) r4
                              else if (c =? 125)%N
                              then Some (JObject (obj_set k v acc), r4)
                              else None
                          | [] => None
                          end
                      end
                    else None
                | [] => None
                end
            end
          else None
      | [] => None
      end
  end.

(** One JSON value at the head of [s], which starts with no white space:
    an object, an array, a string, one of the three words, or a number. *)
Definition parse_token (pv : list N -> option (json * list N)) (fuel : nat)
    (s : list N) : option (json * list N) :=
  match s with
  | [] => None
  | c :: r =>
      if (c =? 123)%N then
        match skip_ws r with
        | c' :: r' =>
            if (c' =? 125)%N then Some (JObject [], r')
            else parse_members pv fuel [] (c' :: r')
        | [] => None
        end
      else if (c =? 91)%N then
        match skip_ws r with
        | c' :: r' =>
            if (c' =? 93)%N then Some (JArray [], r')
            else parse_elements pv fuel [] (c' :: r')
        | [] => None
        end
      else if (c =? 34)%N then
        match lex_string r [] with
        | Some (u, r') => Some (JString u, r')
        | None => None
        end
      else
        match after_word [116; 114; 117; 101]%N s with
        | Some r' => Some (JBool true, r')
        | None =>
            match after_word [102; 97; 108; 115; 101]%N s with
            | Some r' => Some (JBool false, r')
            | None =>
                match after_word [110; 117; 108; 108]%N s with
                | Some r' => Some (JNull, r')
                | None =>
                    match lex_number s with
                    | Some (lit, r') => Some (JNumber lit, r')
                    | None => None
                    end
                end
            end
        end
  end.

(** One JSON value, leading white space allowed.  Every nested value and
    every further element starts after at least one consumed character,
    so a fuel above the length of the text is never used up
    ([parse_value_fuel] below). *)
Fixpoint parse_value (fuel : nat) (s : list N) : option (json * list N) :=
  match fuel with
  | O => None
  | S fuel' => parse_token (parse_value fuel') fuel' (skip_ws s)
  end.

(** [JSON.parse(text)]: [Some v] is the value returned, [None] stands
    for the SyntaxError thrown. *)
Definition parse (text : string) : option json :=
  let s := Js.code_units text in
  match parse_value (S (length s)) s with
  | Some (v, r) => match skip_ws r with [] => Some v | _ => None end
  | None => None
  end.

(** [JSON.stringify] of a string: QuoteJSONString on code units below
    256 (no surrogates there). *)
Definition hex_digit (n : N) : ascii :=
  ascii_of_N (if (n <? 10)%N then 48 + n else 87 + n)%N.

Definition escape (c : ascii) : string :=
  match N_of_ascii c with
  | 8 => "\b"
  | 9 => "\t"
  | 10 => "\n"
  | 12 => "\f"
  | 13 => "\r"
  | 34 => "\" ++ Js.dquote
  | 92 => "\\"
  | n => if (n <? 32)%N
         then "\u00" ++ String (hex_digit (n / 16)) (String (hex_digit (n mod 16)) "")
         else String c ""
  end%N.

Fixpoint escape_all (s : string) : string :=
  match s with
  | EmptyString => EmptyString
  | String c r => escape c ++ escape_all r
  end.

Definition quote (s : string) : string := Js.dquote ++ escape_all s ++ Js.dquote.

(** An object all of whose values are strings, as its properties in
    enumeration order. *)
Definition record : Type := list (string * string).

(** [{ ...o, [key]: value }]: a key already there keeps its place. *)
Fixpoint with_property (key value : string) (o : record) : record :=
  match o with
  | [] => [(key, value)]
  | (k, v) :: r => if String.eqb key k then (k, value) :: r
                   else (k, v) :: with_property key value r
  end.

(** [JSON.stringify(o)] without indentation. *)
Definition stringify (o : record) : string :=
  "{" ++ Js.join "," (map (fun kv => quote (fst kv) ++ ":" ++ quote (snd kv)) o) ++ "}".

(** The text of one member in [stringify]. *)
Definition member_text (kv : string * string) : string :=
  quote (fst kv) ++ ":" ++ quote (snd kv).

(** The member an object under construction gains when the text of one
    member of [stringify] is read. *)
Definition read_member (acc : list (list N * json)) (kv : string * string) :
    list (list N * json) :=
  obj_set (Js.code_units (fst kv)) (JString (Js.code_units (snd kv))) acc.

End Json.

(* ================================================================== *)
(** ** The provider session protocol, as the program sees it *)

Module Mcp.
Import Json.

(** [new Client({ name, version }, { capabilities: {} })] *)
Record Client : Type := { clientInfo_name : string; clientInfo_version : string }.

(** One value of [inputSchema.properties] that is not [null], read as the
    source reads it: [value.type] and [value.description], each of which
    may be missing. *)
Module Property.
Record t : Type := { type : option string; description : option string }.
End Property.

(** [tool.inputSchema].  For [properties], [None] says the object has no
    such key, [Some None] that the key is there with a nullish value, and
    [Some (Some ps)] gives the entries in the order [Object.entries] lists
    them.  The source casts the values of the entries to objects without
    testing them: a value that is [null] is [None] here, any other value
    is [Some] of what is read from it.  [required] is taken at the type of
    the cast. *)
Module Schema.
Record t : Type := {
  properties : option (option (list (string * option Property.t)));
  required : option (list string) }.
End Schema.

(** One element of [tools.tools]. *)
Module Tool.
Record t : Type := {
  name : string;
  description : option string;
  inputSchema : option Schema.t }.
End Tool.

(** A value caught by [catch (error)]. *)
Inductive thrown : Type :=
| SyntaxError (text : string)    (* raised by JSON.parse(text); an Error *)
| Error (message : string)       (* any other instance of Error *)
| NonError (asString : string).  (* not an Error; String(error) is given *)

(** How a promise settles. *)
Inductive settled (A : Type) : Type :=
| Resolved (a : A)
| Rejected (e : thrown).
Arguments Resolved {A} a.
Arguments Rejected {A} e.

(** The awaited calls on the client. *)
Inductive request : Type :=
| Connect (c : Client)
| ListTools
| CallTool (name : string) (arguments : json)
| Close.

(** What each call resolves to.  The program uses the result of
    [callTool] only as [JSON.stringify(result, null, 2)], so that text
    stands for the result. *)
Definition answer (req : request) : Type :=
  match req with
  | Connect _ => unit
  | ListTools => list Tool.t
  | CallTool _ _ => string
  | Close => unit
  end.

(** The provider's side of a session: how each call settles. *)
Definition provider : Type := forall req : request, settled (answer req).

End Mcp.

(* ================================================================== *)
(** ** Process state, effects and asynchronous functions *)

Module Config.

Definition DEFAULT_MCP_SERVER_url : string := "http://127.0.0.1:3845/mcp".

(** The three exported arrays of src/config. *)
Record registry : Type := {
  COMMANDS : list string;
  COMMANDS_INFO : list string;
  COMMANDS_DETAIL : list string }.

(** [export const COMMANDS: string[] = []] and its two siblings. *)
Definition initial : registry :=
  {| COMMANDS := []; COMMANDS_INFO := []; COMMANDS_DETAIL := [] |}.

End Config.

Module Effects.
Import Json Mcp Config.

(** What a function of the program can read and write: the wrapper's
    [client] field, the registry arrays, whether the readline interface
    was closed, and the version recorded in package.json. *)
Record store : Type := {
  client : option Client;
  config : Config.registry;
  rl_closed : bool;
  package_version : string }.

Definition set_client (c : option Client) (s : store) : store :=
  {| client := c; config := config s; rl_closed := rl_closed s;
     package_version := package_version s |}.

Definition set_config (r : Config.registry) (s : store) : store :=
  {| client := client s; config := r; rl_closed := rl_closed s;
     package_version := package_version s |}.

Definition set_rl_closed (b : bool) (s : store) : store :=
  {| client := client s; config := config s; rl_closed := b;
     package_version := package_version s |}.

(** An argument handed to [console.error] or [console.warn]. *)
Inductive console_arg : Type :=
| Text (s : string)
| SyntaxErrorMessage (text : string)  (* .message of the SyntaxError for text *)
| Value (e : thrown).                 (* the caught value itself *)

(** The observable actions, in program order. *)
Inductive event : Type :=
| console_log (s : string)
| console_error (args : list console_arg)
| console_warn (args : list console_arg)
| console_clear
| rl_prompt
| rl_close
| call (req : request)
| process_exit (code : nat)
| unhandled_rejection (e : thrown).

(** The body of an [async] function returning [Promise<void>], in
    continuation style.  [Await req k] issues the call and suspends until
    its promise settles. *)
Inductive prog : Type :=
| Return
| Throw (e : thrown)
| Exit (code : nat)
| Emit (ev : event) (k : prog)
| Get (k : store -> prog)
| Put (s : store) (k : prog)
| Await (req : request) (k : settled (answer req) -> prog).

(** [p; q] *)
Fixpoint seq (p q : prog) : prog :=
  match p with
  | Return => q
  | Throw e => Throw e
  | Exit c => Exit c
  | Emit ev k => Emit ev (seq k q)
  | Get k => Get (fun s => seq (k s) q)
  | Put s k => Put s (seq k q)
  | Await req k => Await req (fun r => seq (k r) q)
  end.

(** [try { p } catch (error) { h error }]; [process.exit] is not caught. *)
Fixpoint try_catch (p : prog) (h : thrown -> prog) : prog :=
  match p with
  | Return => Return
  | Throw e => h e
  | Exit c => Exit c
  | Emit ev k => Emit ev (try_catch k h)
  | Get k => Get (fun s => try_catch (k s) h)
  | Put s k => Put s (try_catch k h)
  | Await req k => Await req (fun r => try_catch (k r) h)
  end.

Definition emit (ev : event) : prog := Emit ev Return.

Definition modify (f : store -> store) : prog := Get (fun s => Put (f s) Return).

(** [const x = await call; k x]: a rejected promise throws. *)
Definition await (req : request) (k : answer req -> prog) : prog :=
  Await req (fun r => match r with
                      | Resolved a => k a
                      | Rejected e => Throw e
                      end).

(** [for (const x of xs) body x] *)
Fixpoint for_of {A : Type} (xs : list A) (body : A -> prog) : prog :=
  match xs with
  | [] => Return
  | x :: r => seq (body x) (for_of r body)
  end.

(** Where the synchronous run of a function stops. *)
Inductive stop : Type :=
| Returned
| Threw (e : thrown)
| Exited (code : nat)
| Suspended (req : request) (k : settled (answer req) -> prog).

Record outcome : Type := { final : store; trace : list event; how : stop }.

Definition emitted (ev : event) (o : outcome) : outcome :=
  {| final := final o; trace := ev :: trace o; how := how o |}.

(** Run [p] up to its first suspension. *)
Fixpoint run (p : prog) (s : store) : outcome :=
  match p with
  | Return => {| final := s; trace := []; how := Returned |}
  | Throw e => {| final := s; trace := []; how := Threw e |}
  | Exit c => {| final := s; trace := [process_exit c]; how := Exited c |}
  | Emit ev k => emitted ev (run k s)
  | Get k => run (k s) s
  | Put s' k => run k s'
  | Await req k => {| final := s; trace := [call req]; how := Suspended req k |}
  end.

(** Run [p] to its end, each awaited call settling as the provider
    says before the function goes on. *)
Fixpoint exec (P : provider) (p : prog) (s : store) : outcome :=
  match p with
  | Return => {| final := s; trace := []; how := Returned |}
  | Throw e => {| final := s; trace := []; how := Threw e |}
  | Exit c => {| final := s; trace := [process_exit c]; how := Exited c |}
  | Emit ev k => emitted ev (exec P k s)
  | Get k => exec P (k s) s
  | Put s' k => exec P k s'
  | Await req k => emitted (call req) (exec P (k (P req)) s)
  end.

(** The event is a call of [console.log]. *)
Definition is_console_log (ev : event) : Prop :=
  match ev with
  | console_log _ => True
  | _ => False
  end.

(** The provider invocations among some events. *)
Fixpoint invocations (out : list event) : list (string * json) :=
  match out with
  | [] => []
  | call (CallTool name arguments) :: r => (name, arguments) :: invocations r
  | _ :: r => invocations r
  end.

End Effects.

Declare Scope prog_scope.
Delimit Scope prog_scope with prog.
Bind Scope prog_scope with Effects.prog.
Notation "p ;; q" := (Effects.seq p q) (at level 61, right associativity) : prog_scope.

(* ================================================================== *)
(** ** src/commands/helpers.ts *)

Module Helpers.
Import Config Mcp Effects.
Local Open Scope prog_scope.

(** Modelled from the spec: [getCurrentVersion] lives in
    src/commands/helpers.ts, which is not among the sources.  Its tests
    ask for a version string in semver form; it is the version that
    package.json records. *)
Definition getCurrentVersion (s : store) : string := package_version s.

(** The numbered entries of the command list, from 1: the entry at
    [idx] pairs [COMMANDS[idx]] with [COMMANDS_INFO[idx]]. *)
Fixpoint numbered (idx : nat) (names : list string) (infos : list string) : list event :=
  match names with
  | [] => []
  | cmd :: r =>
      console_log (Js.of_nat (S idx) ++ ". " ++ cmd ++ ": " ++ nth idx infos "undefined")
        :: numbered (S idx) r infos
  end.

(** What [printAvailableCommands] writes for a registry. *)
Definition listing (r : registry) : list event :=
  console_log (Js.nl ++ "Available commands:") :: numbered 0 (COMMANDS r) (COMMANDS_INFO r).

(** Modelled from the spec: [printAvailableCommands] lives in
    src/commands/helpers.ts, which is not among the sources.  Section 4.4
    has it print the full discovered command list with 1-based numbering
    and descriptions; its tests ask for a header naming the available
    commands and then one line per command that starts with its number.
    The separators inside a line are not fixed by either. *)
Definition printAvailableCommands : prog :=
  Get (fun s => for_of (listing (config s)) emit).

(** [COMMANDS.indexOf(name)] *)
Fixpoint indexOf (names : list string) (x : string) : option nat :=
  match names with
  | [] => None
  | n :: r => if String.eqb n x then Some 0
              else match indexOf r x with
                   | Some i => Some (S i)
                   | None => None
                   end
  end.

(** Modelled from the spec: [printCommandDetail] lives in
    src/commands/helpers.ts, which is not among the sources.  Section 4.3
    has detail help served from the registry's rendered help, and an
    unknown name answered by an unknown-command message plus the full
    listing.  Its tests add that the name is trimmed before it is looked
    up and that an empty name is answered by a request for a name plus
    the listing. *)
Definition printCommandDetail (command : string) : prog :=
  let name := Js.trim command in
  if String.eqb name "" then
    emit (console_log "Please provide a command name.") ;; printAvailableCommands
  else
    Get (fun s =>
      match indexOf (COMMANDS (config s)) name with
      | None =>
          emit (console_log ("Unknown command: " ++ name)) ;; printAvailableCommands
      | Some idx =>
          emit (console_log (Js.nl ++ name ++ ": "
                               ++ nth idx (COMMANDS_INFO (config s)) "undefined")) ;;
          emit (console_log (nth idx (COMMANDS_DETAIL (config s)) "undefined"))
      end).

End Helpers.

(* ================================================================== *)
(** ** The remediation text both entry points print *)

Module Remediation.
Import Effects.
Local Open Scope prog_scope.

Definition item1 : string := "1. Figma Desktop app is running".
Definition item2 : string :=
  "2. You have enabled " ++ Js.dquote ++ "Desktop MCP server" ++ Js.dquote ++ " in Dev Mode".
Definition item3 : string := "3. The server is running at http://127.0.0.1:3845/mcp".

(** The four [console.error] calls after the failure line. *)
Definition checklist : list event :=
  [ console_error [Text (Js.nl ++ "Make sure:")];
    console_error [Text item1];
    console_error [Text item2];
    console_error [Text item3] ].

Definition print_checklist : prog := for_of checklist emit.

Definition event_is (t : string) (ev : event) : bool :=
  match ev with
  | console_error [Text u] => String.eqb t u
  | _ => false
  end.

(** All three items were written to the error stream. *)
Definition shows_checklist (out : list event) : bool :=
  existsb (event_is item1) out && existsb (event_is item2) out
    && existsb (event_is item3) out.

End Remediation.

(* ================================================================== *)
(** ** The argument of an invocation *)

Module Argument.
Import Json Mcp.

(** [arg && arg.trim() !== '' ? JSON.parse(arg) : {}], the line both
    dispatchers share.  [None] is a [null] or [undefined] argument. *)
Definition argObj (arg : option string) : json + thrown :=
  match arg with
  | None => inl (JObject [])
  | Some a =>
      if String.eqb a "" then inl (JObject [])
      else if String.eqb (Js.trim a) "" then inl (JObject [])
      else match Json.parse a with
           | Some v => inl v
           | None => inr (SyntaxError a)
           end
  end.

(** An argument string of white space only (the empty string too). *)
Definition whitespace_only (a : string) : bool :=
  forallb Js.is_whitespace (list_ascii_of_string a).

(** The text parses, and to an object. *)
Definition parses_to_object (a : string) : bool :=
  match Json.parse a with
  | Some (JObject _) => true
  | _ => false
  end.

(** [error instanceof Error ? error.message : String(error)] *)
Definition errorMessage (error : thrown) : Effects.console_arg :=
  match error with
  | SyntaxError text => Effects.SyntaxErrorMessage text
  | Error message => Effects.Text message
  | NonError asString => Effects.Text asString
  end.

End Argument.

(* ================================================================== *)
(** ** src/cli/wrapper.ts *)

Module Wrapper.
Import Json Mcp Config Effects Helpers Argument.
Local Open Scope prog_scope.

(** [new wrapper()] in a fresh process. *)
Definition fresh (version : string) : store :=
  {| client := None; config := Config.initial; rl_closed := false;
     package_version := version |}.

Definition on_config (f : registry -> registry) : prog :=
  modify (fun s => set_config (f (config s)) s).

Definition set_COMMANDS (l : list string) (r : registry) : registry :=
  {| COMMANDS := l; COMMANDS_INFO := COMMANDS_INFO r; COMMANDS_DETAIL := COMMANDS_DETAIL r |}.
Definition set_COMMANDS_INFO (l : list string) (r : registry) : registry :=
  {| COMMANDS := COMMANDS r; COMMANDS_INFO := l; COMMANDS_DETAIL := COMMANDS_DETAIL r |}.
Definition set_COMMANDS_DETAIL (l : list string) (r : registry) : registry :=
  {| COMMANDS := COMMANDS r; COMMANDS_INFO := COMMANDS_INFO r; COMMANDS_DETAIL := l |}.

(** The line one property contributes to the parameter list. *)
Definition parameter_line (required : list string) (entry : string * Property.t) : string :=
  let (key, value) := entry in
  let isRequired := Js.includes required key in
  let type := Js.or_else (Property.type value) "any" in
  let desc := Js.or_else (Property.description value) "" in
  "- " ++ key ++ " " ++ (if isRequired then "(required)" else "(optional)")
    ++ ": " ++ type ++ " - " ++ desc ++ Js.nl.

(** [schema.properties || {}], as its entries. *)
Definition entries (p : option (list (string * option Property.t))) :
    list (string * option Property.t) :=
  match p with
  | Some ps => ps
  | None => []
  end.

(** The value thrown by [value.type] when [value] is [null]: a
    TypeError, an instance of Error (the message is the one of V8). *)
Definition null_value_error : thrown :=
  Error "Cannot read properties of null (reading 'type')".

(** No value of the entries is [null]. *)
Definition object_valued (properties : list (string * option Property.t)) : bool :=
  forallb (fun entry => match snd entry with Some _ => true | None => false end) properties.

(** [for (const [key, value] of Object.entries(properties)) { detail +=
    ... }]: one line per entry is added to [detail], and the loop is left
    by the TypeError at the first value that is [null]. *)
Fixpoint parameter_lines (required : list string)
    (properties : list (string * option Property.t)) (detail : string) : string + thrown :=
  match properties with
  | [] => inl detail
  | (key, Some value) :: rest =>
      parameter_lines required rest (detail ++ parameter_line required (key, value))
  | (_, None) :: _ => inr null_value_error
  end.

(** [Object.keys(properties).reduce((acc, key) => ({ ...acc, [key]:
    `<${key}>` }), {})] *)
Definition placeholders (keys : list string) : record :=
  fold_left (fun acc key => with_property key ("<" ++ key ++ ">") acc) keys [].

(** The example argument after the tool name. *)
Definition example (tool : Tool.t) : string :=
  match Tool.inputSchema tool with
  | Some schema =>
      match Schema.properties schema with
      | Some p => stringify (placeholders (map fst (entries p)))
      | None => "{}"
      end
  | None => "{}"
  end.

(** The text [discoverTools] builds in [detail] for one tool (l.79-98),
    or the error thrown on the way. *)
Definition detail (tool : Tool.t) : string + thrown :=
  let detail := Js.nl ++ "Parameters:" ++ Js.nl in
  let built :=
    match Tool.inputSchema tool with
    | Some schema =>
        match Schema.properties schema with
        | Some p =>
            let properties := entries p in
            let required := match Schema.required schema with
                            | Some r => r
                            | None => []
                            end in
            parameter_lines required properties detail
        | None => inl (detail ++ "No parameters required" ++ Js.nl)
        end
    | None => inl (detail ++ "No parameters required" ++ Js.nl)
    end in
  match built with
  | inl detail =>
      inl (detail ++ Js.nl ++ "Example:" ++ Js.nl ++ Tool.name tool ++ " " ++ example tool
             ++ Js.nl)
  | inr error => inr error
  end.

(** [tool.description || 'No description available'] *)
Definition info (tool : Tool.t) : string :=
  Js.or_else (Tool.description tool) "No description available".

(** The body of the loop over [tools.tools] (l.75-100): the name and
    the description are pushed, then [detail] is built, and pushed when
    no error was thrown on the way. *)
Definition push_tool (tool : Tool.t) : prog :=
  on_config (fun r => set_COMMANDS (COMMANDS r ++ [Tool.name tool]) r) ;;
  on_config (fun r => set_COMMANDS_INFO (COMMANDS_INFO r ++ [info tool]) r) ;;
  match detail tool with
  | inl detail => on_config (fun r => set_COMMANDS_DETAIL (COMMANDS_DETAIL r ++ [detail]) r)
  | inr error => Throw error
  end.

(** The arrays as the loop over the tools leaves them, started on [r],
    and the error that ended the loop, if one did. *)
Fixpoint refill (tools : list Tool.t) (r : registry) : registry * option thrown :=
  match tools with
  | [] => (r, None)
  | tool :: rest =>
      let r1 := set_COMMANDS_INFO (COMMANDS_INFO r ++ [info tool])
                  (set_COMMANDS (COMMANDS r ++ [Tool.name tool]) r) in
      match detail tool with
      | inl detail => refill rest (set_COMMANDS_DETAIL (COMMANDS_DETAIL r1 ++ [detail]) r1)
      | inr error => (r1, Some error)
      end
  end.

(** The registry that lists exactly the given tools, in their order,
    with the given rendered help. *)
Definition registry_of (tools : list Tool.t) (details : list string) : registry :=
  {| COMMANDS := map Tool.name tools;
     COMMANDS_INFO := map info tools;
     COMMANDS_DETAIL := details |}.

(** The rendered help of every tool of the list; [None] when building
    it throws for one of them. *)
Fixpoint rendered (tools : list Tool.t) : option (list string) :=
  match tools with
  | [] => Some []
  | tool :: rest =>
      match detail tool, rendered rest with
      | inl detail, Some details => Some (detail :: details)
      | _, _ => None
      end
  end.

(** The line a successful discovery logs. *)
Definition discovered_banner (tools : list Tool.t) : event :=
  console_log (Js.nl ++ "Discovered " ++ Js.of_nat (length tools)
                 ++ " tools from Figma MCP server").

Definition discoverTools : prog :=
  Get (fun s =>
    match client s with
    | None => Return
    | Some _ =>
        try_catch
          (await ListTools (fun tools =>
             on_config (set_COMMANDS []) ;;
             on_config (set_COMMANDS_INFO []) ;;
             on_config (set_COMMANDS_DETAIL []) ;;
             for_of tools push_tool ;;
             emit (discovered_banner tools)))
          (fun error =>
             emit (console_warn [Text "Warning: Could not discover tools from server:";
                                 Value error]))
    end).

Definition help_text (version commandList : string) : string :=
  Js.join Js.nl
    [ "";
      "Figma Desktop MCP CLI v" ++ version;
      "";
      "Usage:";
      "";
      "commands         list all the available commands";
      "<command> -h     quick help on <command>";
      "<command> <arg>  run <command> with argument";
      "clear            clear the screen";
      "exit, quit, q    exit the CLI";
      "";
      "All commands:";
      "";
      commandList;
      "";
      "Note: Make sure Figma Desktop app is running with MCP server enabled in Dev Mode.";
      "Select a frame/layer in Figma before using commands that require selections.";
      "";
      "" ].

Definition printHelp : prog :=
  Get (fun s =>
    let version := getCurrentVersion s in
    let commandList :=
      match COMMANDS (config s) with
      | [] => "No commands available (not connected)"
      | names => Js.join ", " names
      end in
    emit (console_log (help_text version commandList))).

(** [new Client({ name: 'figma-desktop-cli', version: '1' }, ...)] *)
Definition cli : Client :=
  {| clientInfo_name := "figma-desktop-cli"; clientInfo_version := "1" |}.

Definition connect : prog :=
  try_catch
    (modify (set_client (Some cli)) ;;
     await (Connect cli) (fun _ => discoverTools ;; printHelp))
    (fun error =>
       emit (console_error [Text "Failed to connect to Figma Desktop MCP server:"; Value error]) ;;
       Remediation.print_checklist ;;
       Exit 1).

(** The ['close'] listener [start] registers. *)
Definition on_close : prog :=
  Get (fun s =>
    match client s with
    | Some _ => await Close (fun _ => Exit 0)
    | None => Exit 0
    end).

(** The interface closes: once only, it is marked closed and emits
    ['close'], whose listener runs at once. *)
Definition closing : prog :=
  Get (fun s =>
    if rl_closed s then Return
    else modify (set_rl_closed true) ;; on_close).

(** [this.rl.close()].  The one caller modelled, [handleCommand], does
    nothing after it, so the listener is run in line. *)
Definition disconnect : prog := emit rl_close ;; closing.

(** The line that echoes the request. *)
Definition echo (command : string) (arg : option string) : event :=
  console_log (Js.join " " (Js.filter_Boolean [Some command; arg])).

(** The line the [catch] block writes. *)
Definition failure_line (error : thrown) : event :=
  console_error [Text "Error running command:"; errorMessage error].

Definition runCommand (command : string) (arg : option string) : prog :=
  Get (fun s =>
    match client s with
    | None =>
        emit (console_log "MCP server not available!") ;;
        emit rl_prompt
    | Some _ =>
        try_catch
          (emit (echo command arg) ;;
           match argObj arg with
           | inr error => Throw error
           | inl argObj =>
               await (CallTool command argObj) (fun result => emit (console_log result))
           end)
          (fun error => emit (failure_line error)) ;;
        emit rl_prompt
    end).

Definition is_dash_h (a : option string) : bool :=
  match a with
  | Some t => String.eqb t "-h"
  | None => false
  end.

(** The trimmed lines that never reach the split: the empty line and
    the control words, each compared with the whole line. *)
Definition is_control (trimmed : string) : bool :=
  String.eqb trimmed "" || String.eqb trimmed "exit" || String.eqb trimmed "quit"
    || String.eqb trimmed "q" || String.eqb trimmed "help" || String.eqb trimmed "?"
    || String.eqb trimmed "commands" || String.eqb trimmed "clear".

Definition handleCommand (input : string) : prog :=
  let trimmed := Js.trim input in
  if String.eqb trimmed "" then emit rl_prompt
  else if String.eqb trimmed "exit" || String.eqb trimmed "quit" || String.eqb trimmed "q"
  then disconnect
  else if String.eqb trimmed "help" || String.eqb trimmed "?"
  then printHelp ;; emit rl_prompt
  else if String.eqb trimmed "commands"
  then printAvailableCommands ;; emit rl_prompt
  else if String.eqb trimmed "clear"
  then emit console_clear ;; emit rl_prompt
  else
    let parts := Js.split " " trimmed in
    let command := hd "" parts in
    let args := tl parts in
    if is_dash_h (hd_error args)
    then printCommandDetail command ;; emit rl_prompt
    else runCommand command (hd_error args).

(** *** The interactive loop

    [start] prompts once and registers the ['line'] and ['close']
    listeners.  The emitter calls a listener and does not wait for the
    promise an [async] listener returns: a line starts its handler at
    once, a handler that awaits the provider is set aside until that
    promise settles, and an uncaught rejection ends the process with
    status 1.  The signal handlers of [start] are left out. *)

Definition start : prog := emit rl_prompt.

(** A handler set aside at an [await]. *)
Record task : Type := {
  awaiting : request;
  resume : settled (answer awaiting) -> prog }.

Record machine : Type := {
  mem : store;
  pending : list task;
  exit_code : option nat }.

(** What the loop reacts to: a line read, the end of the input, and the
    settling of the promise of the [i]-th pending handler (the provider
    [P] says how). *)
Inductive stimulus : Type :=
| Line (text : string)
| Eof
| Settle (i : nat) (P : provider).

Definition absorb (o : outcome) (others : list task) : machine * list event :=
  match how o with
  | Returned => ({| mem := final o; pending := others; exit_code := None |}, trace o)
  | Threw e =>
      ({| mem := final o; pending := others; exit_code := Some 1 |},
       (trace o ++ [unhandled_rejection e; process_exit 1])%list)
  | Exited c => ({| mem := final o; pending := others; exit_code := Some c |}, trace o)
  | Suspended req k =>
      ({| mem := final o;
          pending := (others ++ [{| awaiting := req; resume := k |}])%list;
          exit_code := None |}, trace o)
  end.

Definition without (i : nat) (l : list task) : list task :=
  (firstn i l ++ skipn (S i) l)%list.

Definition step (m : machine) (x : stimulus) : machine * list event :=
  match exit_code m with
  | Some _ => (m, [])
  | None =>
      match x with
      | Line text =>
          if rl_closed (mem m) then (m, [])
          else absorb (run (handleCommand text) (mem m)) (pending m)
      | Eof => absorb (run closing (mem m)) (pending m)
      | Settle i P =>
          match nth_error (pending m) i with
          | None => (m, [])
          | Some t =>
              absorb (run (resume t (P (awaiting t))) (mem m)) (without i (pending m))
          end
      end
  end.

Fixpoint loop (m : machine) (xs : list stimulus) : machine * list event :=
  match xs with
  | [] => (m, [])
  | x :: r =>
      let (m1, out1) := step m x in
      let (m2, out2) := loop m1 r in
      (m2, (out1 ++ out2)%list)
  end.

(** The machine [start] is entered with. *)
Definition started (s : store) : machine :=
  {| mem := s; pending := []; exit_code := None |}.

End Wrapper.

(* ================================================================== *)
(** ** src/commands/runner.ts *)

Module Runner.
Import Json Mcp Effects Argument.
Local Open Scope prog_scope.

(** [new Client({ name: 'figma-desktop-cli-headless', version: '1' }, ...)] *)
Definition headless : Client :=
  {| clientInfo_name := "figma-desktop-cli-headless"; clientInfo_version := "1" |}.

(** The line that opens every failure report. *)
Definition failure_line (error : thrown) : event :=
  console_error [Text "Error running command:"; errorMessage error].

(** All that the [catch] block writes. *)
Definition report (error : thrown) : list event :=
  (failure_line error :: Remediation.checklist ++ [process_exit 1])%list.

(** The line that echoes the request. *)
Definition echo (command : string) (arg flag : option string) : event :=
  console_log (Js.join " " (Js.filter_Boolean [Some command; arg; flag])).

Definition runCommand (command : string) (arg flag : option string) : prog :=
  try_catch
    (emit (echo command arg flag) ;;
     await (Connect headless) (fun _ =>
       match argObj arg with
       | inr error => Throw error
       | inl argObj =>
           await (CallTool command argObj) (fun result =>
             emit (console_log result) ;;
             await Close (fun _ => Exit 0))
       end))
    (fun error =>
       emit (failure_line error) ;;
       Remediation.print_checklist ;;
       Exit 1).

End Runner.

(* ================================================================== *)
(** ** Sample inputs *)

Module Samples.
Import Json Mcp Config Effects.

Definition get_current_page : Tool.t :=
  {| Tool.name := "get_current_page"; Tool.description := None; Tool.inputSchema := None |}.

Definition pageId : Property.t :=
  {| Property.type := Some "string"; Property.description := None |}.

Definition navigate_page : Tool.t :=
  {| Tool.name := "navigate_page";
     Tool.description := None;
     Tool.inputSchema :=
       Some {| Schema.properties := Some (Some [("pageId", Some pageId)]);
               Schema.required := Some ["pageId"] |} |}.

Definition tools : list Tool.t := [get_current_page; navigate_page].

(** A tool one of whose declared properties has the value [null]:
    [{ name: 'set_variable', inputSchema: { properties: { value: null } } }]. *)
Definition set_variable : Tool.t :=
  {| Tool.name := "set_variable";
     Tool.description := None;
     Tool.inputSchema :=
       Some {| Schema.properties := Some (Some [("value", None)]);
               Schema.required := None |} |}.

(** A tool list that has it in second place. *)
Definition tools_with_null : list Tool.t := [get_current_page; set_variable; navigate_page].

(** A wrapper that holds a client and has discovered nothing yet. *)
Definition connected : store :=
  {| client := Some Wrapper.cli; config := Config.initial; rl_closed := false;
     package_version := "0.1.0" |}.

(** The same after discovering [tools]. *)
Definition discovered : store :=
  set_config (fst (Wrapper.refill tools Config.initial)) connected.

(** A wrapper that was never connected. *)
Definition unconnected : store := Wrapper.fresh "0.1.0".

(** A provider all of whose calls succeed. *)
Definition obliging : provider :=
  fun req =>
    match req with
    | Connect _ => Resolved tt
    | ListTools => Resolved tools
    | CallTool _ _ => Resolved "{}"
    | Close => Resolved tt
    end.

(** A provider that cannot be reached. *)
Definition unreachable : provider :=
  fun req =>
    match req with
    | Connect _ => Rejected (Error "Connection failed")
    | ListTools => Resolved []
    | CallTool _ _ => Resolved "{}"
    | Close => Resolved tt
    end.

(** A provider whose tool list cannot be fetched. *)
Definition undiscoverable : provider :=
  fun req =>
    match req with
    | Connect _ => Resolved tt
    | ListTools => Rejected (Error "Request timed out")
    | CallTool _ _ => Resolved "{}"
    | Close => Resolved tt
    end.

(** A provider whose tool list is [tools_with_null]. *)
Definition misdeclaring : provider :=
  fun req =>
    match req with
    | Connect _ => Resolved tt
    | ListTools => Resolved tools_with_null
    | CallTool _ _ => Resolved "{}"
    | Close => Resolved tt
    end.

(** A provider that fails every invocation. *)
Definition failing : provider :=
  fun req =>
    match req with
    | Connect _ => Resolved tt
    | ListTools => Resolved tools
    | CallTool _ _ => Rejected (Error "Tool execution failed")
    | Close => Resolved tt
    end.

(** [{"pageId": "123:456"}], with the space after the colon. *)
Definition spaced_argument : string :=
  "{" ++ Js.dquote ++ "pageId" ++ Js.dquote ++ ": "
      ++ Js.dquote ++ "123:456" ++ Js.dquote ++ "}".

(** Its part before the space: [{"pageId":]. *)
Definition cut_argument : string := "{" ++ Js.dquote ++ "pageId" ++ Js.dquote ++ ":".

(** The value [spaced_argument] parses to. *)
Definition page_argument : json :=
  JObject [(Js.code_units "pageId", JString (Js.code_units "123:456"))].

End Samples.

(** [sub] occurs in [text]. *)
Definition contains (sub text : string) : Prop :=
  exists before after, text = before ++ sub ++ after.


(* ================================================================== *)
(** * Properties *)

Import Json Mcp Config Effects.

(** ** The JSON parser *)

Section ParserFacts.

Lemma skip_ws_le (s : list N) : length (skip_ws s) <= length s.
Proof.
  induction s as [|c r IH]; simpl; [lia |].
  destruct (is_ws c); simpl; lia.
Qed.

Lemma lex_string_shorter (s acc u r : list N) :
  lex_string s acc = Some (u, r) -> length r < length s.
Proof.
  remember (length s) as n eqn:Hn. assert (Hle : length s <= n) by lia. clear Hn.
  revert s acc Hle. induction n as [|n IH]; intros s acc Hle H.
  - destruct s; [discriminate H | simpl in Hle; lia].
  - destruct s as [|c s]; [discriminate H |]. simpl in Hle. simpl in H.
    destruct (c =? 34)%N.
    { injection H as _ <-. simpl. lia. }
    destruct (c =? 92)%N.
    { destruct s as [|e r1]; [discriminate H |].
      destruct (e =? 117)%N.
      - destruct r1 as [|h1 [|h2 [|h3 [|h4 r2]]]]; try discriminate H.
        destruct (hex4 h1 h2 h3 h4); [| discriminate H].
        apply IH in H; simpl in *; lia.
      - destruct (simple_escape e); [| discriminate H].
        apply IH in H; simpl in *; lia. }
    destruct (c <? 32)%N; [discriminate H |].
    apply IH in H; simpl in *; lia.
Qed.

Lemma take_digits_le (s d r : list N) :
  take_digits s = (d, r) -> length r <= length s.
Proof.
  revert d r. induction s as [|c s IH]; intros d r H; simpl in H.
  - injection H as _ <-. simpl. lia.
  - destruct (is_digit c).
    + destruct (take_digits s) as [d' r'] eqn:E. injection H as _ <-.
      specialize (IH d' r' eq_refl). simpl. lia.
    + injection H as _ <-. simpl. lia.
Qed.

Lemma lex_digits_shorter (s d r : list N) :
  lex_digits s = Some (d, r) -> length r < length s.
Proof.
  destruct s as [|c s]; simpl; [discriminate |].
  destruct (c =? 48)%N.
  - intros H. injection H as _ <-. lia.
  - destruct (is_digit c); [| discriminate].
    destruct (take_digits s) as [d' r'] eqn:E. intros H. injection H as _ <-.
    apply take_digits_le in E. lia.
Qed.

Lemma lex_int_shorter (s d r : list N) :
  lex_int s = Some (d, r) -> length r < length s.
Proof.
  destruct s as [|c s]; [discriminate |]. unfold lex_int.
  destruct (c =? 45)%N.
  - destruct (lex_digits s) as [[d' r'] |] eqn:E; [| discriminate].
    intros H. injection H as _ <-. apply lex_digits_shorter in E. simpl. lia.
  - apply lex_digits_shorter.
Qed.

Lemma lex_frac_le (s d r : list N) :
  lex_frac s = Some (d, r) -> length r <= length s.
Proof.
  destruct s as [|c s]; simpl.
  - intros H. injection H as _ <-. simpl. lia.
  - destruct (c =? 46)%N.
    + destruct (take_digits s) as [[|x d'] r'] eqn:E; [discriminate |].
      intros H. injection H as _ <-. apply take_digits_le in E. lia.
    + intros H. injection H as _ <-. simpl. lia.
Qed.

Lemma lex_sign_le (s d r : list N) :
  lex_sign s = (d, r) -> length r <= length s.
Proof.
  destruct s as [|c s]; simpl.
  - intros H. injection H as _ <-. simpl. lia.
  - destruct ((c =? 43) || (c =? 45))%N; intros H; injection H as _ <-; simpl; lia.
Qed.

Lemma lex_exp_le (s d r : list N) :
  lex_exp s = Some (d, r) -> length r <= length s.
Proof.
  destruct s as [|e s]; simpl.
  - intros H. injection H as _ <-. simpl. lia.
  - destruct ((e =? 101) || (e =? 69))%N.
    + destruct (lex_sign s) as [sign r1] eqn:Es.
      destruct (take_digits r1) as [[|x d'] r'] eqn:E; [discriminate |].
      intros H. injection H as _ <-.
      apply take_digits_le in E. apply lex_sign_le in Es. lia.
    + intros H. injection H as _ <-. simpl. lia.
Qed.

Lemma lex_number_shorter (s lit r : list N) :
  lex_number s = Some (lit, r) -> length r < length s.
Proof.
  unfold lex_number.
  destruct (lex_int s) as [[i r1] |] eqn:Ei; [| discriminate].
  destruct (lex_frac r1) as [[f r2] |] eqn:Ef; [| discriminate].
  destruct (lex_exp r2) as [[e r3] |] eqn:Ee; [| discriminate].
  intros H. injection H as _ <-.
  apply lex_int_shorter in Ei. apply lex_frac_le in Ef. apply lex_exp_le in Ee. lia.
Qed.

Lemma after_word_length (word s r : list N) :
  after_word word s = Some r -> length s = length word + length r.
Proof.
  revert s. induction word as [|w word IH]; intros s; simpl.
  - intros H. now injection H as <-.
  - destruct s as [|c s]; [discriminate |].
    destruct (c =? w)%N; [| discriminate].
    intros H. apply IH in H. simpl. lia.
Qed.

(** An array's elements and an object's members leave less text than they
    were given, when a value does. *)
Lemma parse_elements_shorter (pv : list N -> option (json * list N)) :
  consumes pv ->
  forall fuel acc s v r,
    parse_elements pv fuel acc s = Some (v, r) -> length r < length s.
Proof.
  intros Hpv fuel. induction fuel as [|fuel IH]; intros acc s v r H; [discriminate H |].
  simpl in H. destruct (pv s) as [[v1 r1] |] eqn:E; [| discriminate H].
  apply Hpv in E. pose proof (skip_ws_le r1) as Hws.
  destruct (skip_ws r1) as [|c r']; [discriminate H |]. simpl in Hws.
  destruct (c =? 44)%N.
  - apply IH in H. lia.
  - destruct (c =? 93)%N; [| discriminate H]. injection H as _ <-. lia.
Qed.

Lemma parse_members_shorter (pv : list N -> option (json * list N)) :
  consumes pv ->
  forall fuel acc s v r,
    parse_members pv fuel acc s = Some (v, r) -> length r < length s.
Proof.
  intros Hpv fuel. induction fuel as [|fuel IH]; intros acc s v r H; [discriminate H |].
  simpl in H. pose proof (skip_ws_le s) as Hs.
  destruct (skip_ws s) as [|q r0]; [discriminate H |]. simpl in Hs.
  destruct (q =? 34)%N; [| discriminate H].
  destruct (lex_string r0 []) as [[k r1] |] eqn:Ek; [| discriminate H].
  apply lex_string_shorter in Ek. pose proof (skip_ws_le r1) as H1.
  destruct (skip_ws r1) as [|colon r2]; [discriminate H |]. simpl in H1.
  destruct (colon =? 58)%N; [| discriminate H].
  destruct (pv r2) as [[v3 r3] |] eqn:E; [| discriminate H].
  apply Hpv in E. pose proof (skip_ws_le r3) as H3.
  destruct (skip_ws r3) as [|c r4]; [discriminate H |]. simpl in H3.
  destruct (c =? 44)%N.
  - apply IH in H. lia.
  - destruct (c =? 125)%N; [| discriminate H]. injection H as _ <-. lia.
Qed.

Lemma parse_token_shorter (pv : list N -> option (json * list N)) :
  consumes pv ->
  forall fuel s v r, parse_token pv fuel s = Some (v, r) -> length r < length s.
Proof.
  intros Hpv fuel s v r H. unfold parse_token in H.
  destruct s as [|c s]; [discriminate H |].
  destruct (c =? 123)%N.
  { pose proof (skip_ws_le s) as Hs.
    destruct (skip_ws s) as [|c' r']; [discriminate H |]. simpl in Hs.
    destruct (c' =? 125)%N.
    - injection H as _ <-. simpl. lia.
    - apply (parse_members_shorter pv Hpv) in H. simpl in *. lia. }
  destruct (c =? 91)%N.
  { pose proof (skip_ws_le s) as Hs.
    destruct (skip_ws s) as [|c' r']; [discriminate H |]. simpl in Hs.
    destruct (c' =? 93)%N.
    - injection H as _ <-. simpl. lia.
    - apply (parse_elements_shorter pv Hpv) in H. simpl in *. lia. }
  destruct (c =? 34)%N.
  { destruct (lex_string s []) as [[u r'] |] eqn:E; [| discriminate H].
    injection H as _ <-. apply lex_string_shorter in E. simpl. lia. }
  destruct (after_word _ (c :: s)) as [r' |] eqn:E1.
  { injection H as _ <-. apply after_word_length in E1. simpl in *. lia. }
  destruct (after_word _ (c :: s)) as [r' |] eqn:E2 in H.
  { injection H as _ <-. apply after_word_length in E2. simpl in *. lia. }
  destruct (after_word _ (c :: s)) as [r' |] eqn:E3 in H.
  { injection H as _ <-. apply after_word_length in E3. simpl in *. lia. }
  destruct (lex_number (c :: s)) as [[lit r'] |] eqn:E; [| discriminate H].
  injection H as _ <-. now apply lex_number_shorter in E.
Qed.

(** A value leaves less text than it was given. *)
Lemma parse_value_shorter (fuel : nat) : consumes (parse_value fuel).
Proof.
  induction fuel as [|fuel IH]; intros s v r H; [discriminate H |].
  simpl in H. apply (parse_token_shorter _ IH) in H.
  pose proof (skip_ws_le s). lia.
Qed.

Lemma consumes_nil (pv : list N -> option (json * list N)) :
  consumes pv -> pv [] = None.
Proof.
  intros Hpv. destruct (pv []) as [[v r] |] eqn:E; [| reflexivity].
  apply Hpv in E. simpl in E. lia.
Qed.

(** The elements come out the same for any two fuels that cover the text
    and any two value parsers that agree on texts no longer than it. *)
Lemma parse_elements_stable (pv pv' : list N -> option (json * list N)) :
  consumes pv ->
  forall fuel fuel' acc s,
    (forall x, length x <= length s -> pv x = pv' x) ->
    length s <= fuel -> length s <= fuel' ->
    parse_elements pv fuel acc s = parse_elements pv' fuel' acc s.
Proof.
  intros Hpv fuel. induction fuel as [|fuel IH]; intros fuel' acc s Hagree Hf Hf'.
  - destruct s; [| simpl in Hf; lia].
    destruct fuel'; [reflexivity |]. simpl.
    rewrite <- (Hagree [] (le_n _)), (consumes_nil pv Hpv). reflexivity.
  - destruct fuel' as [|fuel'].
    + destruct s; [| simpl in Hf'; lia]. simpl.
      rewrite (consumes_nil pv Hpv). reflexivity.
    + simpl. rewrite <- (Hagree s (le_n _)).
      destruct (pv s) as [[v r] |] eqn:E; [| reflexivity].
      apply Hpv in E. pose proof (skip_ws_le r) as Hws.
      destruct (skip_ws r) as [|c r']; [reflexivity |]. simpl in Hws.
      destruct (c =? 44)%N; [| reflexivity].
      apply IH; [| lia | lia].
      intros x Hx. apply Hagree. lia.
Qed.

Lemma parse_members_stable (pv pv' : list N -> option (json * list N)) :
  consumes pv ->
  forall fuel fuel' acc s,
    (forall x, length x <= length s -> pv x = pv' x) ->
    length s <= fuel -> length s <= fuel' ->
    parse_members pv fuel acc s = parse_members pv' fuel' acc s.
Proof.
  intros Hpv fuel. induction fuel as [|fuel IH]; intros fuel' acc s Hagree Hf Hf'.
  - destruct s; [| simpl in Hf; lia]. destruct fuel'; reflexivity.
  - destruct fuel' as [|fuel'].
    + destruct s; [| simpl in Hf'; lia]. reflexivity.
    + simpl. pose proof (skip_ws_le s) as Hs.
      destruct (skip_ws s) as [|q r0]; [reflexivity |]. simpl in Hs.
      destruct (q =? 34)%N; [| reflexivity].
      destruct (lex_string r0 []) as [[k r1] |] eqn:Ek; [| reflexivity].
      apply lex_string_shorter in Ek. pose proof (skip_ws_le r1) as H1.
      destruct (skip_ws r1) as [|colon r2]; [reflexivity |]. simpl in H1.
      destruct (colon =? 58)%N; [| reflexivity].
      rewrite <- (Hagree r2) by lia.
      destruct (pv r2) as [[v3 r3] |] eqn:E; [| reflexivity].
      apply Hpv in E. pose proof (skip_ws_le r3) as H3.
      destruct (skip_ws r3) as [|c r4]; [reflexivity |]. simpl in H3.
      destruct (c =? 44)%N; [| reflexivity].
      apply IH; [| lia | lia].
      intros x Hx. apply Hagree. lia.
Qed.

Lemma parse_token_stable (pv pv' : list N -> option (json * list N)) :
  consumes pv ->
  forall fuel fuel' s,
    (forall x, length x < length s -> pv x = pv' x) ->
    length s <= S fuel -> length s <= S fuel' ->
    parse_token pv fuel s = parse_token pv' fuel' s.
Proof.
  intros Hpv fuel fuel' s Hagree Hf Hf'. unfold parse_token.
  destruct s as [|c s]; [reflexivity |]. simpl in Hf, Hf'.
  pose proof (skip_ws_le s) as Hs.
  destruct (c =? 123)%N.
  { destruct (skip_ws s) as [|c' r']; [reflexivity |].
    destruct (c' =? 125)%N; [reflexivity |].
    apply (parse_members_stable pv pv' Hpv); [| lia | lia].
    intros x Hx. apply Hagree. simpl in *. lia. }
  destruct (c =? 91)%N.
  { destruct (skip_ws s) as [|c' r']; [reflexivity |].
    destruct (c' =? 93)%N; [reflexivity |].
    apply (parse_elements_stable pv pv' Hpv); [| lia | lia].
    intros x Hx. apply Hagree. simpl in *. lia. }
  reflexivity.
Qed.

(** The fuel of [parse_value] does not matter once it is above the
    length of the text. *)
Lemma parse_value_stable (fuel fuel' : nat) (s : list N) :
  length s < fuel -> length s < fuel' ->
  parse_value fuel s = parse_value fuel' s.
Proof.
  revert fuel' s. induction fuel as [|fuel IH]; intros fuel' s Hf Hf'; [lia |].
  destruct fuel' as [|fuel']; [lia |]. simpl.
  pose proof (skip_ws_le s) as Hs.
  apply (parse_token_stable _ _ (parse_value_shorter fuel)); [| lia | lia].
  intros x Hx. apply IH; lia.
Qed.

Lemma parse_value_fuel (fuel : nat) (s : list N) :
  length s < fuel -> parse_value fuel s = parse_value (S (length s)) s.
Proof.
  intros H. apply parse_value_stable; lia.
Qed.

End ParserFacts.

(** What [JSON.parse] makes of some texts. *)
Example parse_braces : Json.parse "{}" = Some (JObject []).
Proof. reflexivity. Qed.

Example parse_not_json : Json.parse "not json" = None.
Proof. reflexivity. Qed.

Example parse_number : Json.parse "42" = Some (JNumber (Js.code_units "42")).
Proof. reflexivity. Qed.

Example parse_spaced_argument : Json.parse Samples.spaced_argument = Some Samples.page_argument.
Proof. reflexivity. Qed.

Example parse_cut_argument : Json.parse Samples.cut_argument = None.
Proof. reflexivity. Qed.

Example parse_nested : Json.parse " [ [ ] , { } , null ] " = Some (JArray [JArray []; JObject []; JNull]).
Proof. reflexivity. Qed.

Example parse_trailing_comma : Json.parse "[1,]" = None.
Proof. reflexivity. Qed.

Example parse_leading_zero : Json.parse "01" = None.
Proof. reflexivity. Qed.

(** ** Strings *)

Section StringFacts.

Lemma append_assoc (a b c : string) : (a ++ b) ++ c = a ++ (b ++ c).
Proof.
  induction a as [|x a IH]; simpl; [reflexivity | now rewrite IH].
Qed.

Lemma append_empty_r (a : string) : a ++ "" = a.
Proof.
  induction a as [|x a IH]; simpl; [reflexivity | now rewrite IH].
Qed.

(** A string of white space only trims to the empty string. *)
Lemma trimStart_whitespace (s : string) :
  forallb Js.is_whitespace (list_ascii_of_string s) = true -> Js.trimStart s = "".
Proof.
  induction s as [|c r IH]; simpl; [reflexivity |].
  intros H. apply andb_true_iff in H as [Hc Hr].
  rewrite Hc. now apply IH.
Qed.

Lemma trim_whitespace (s : string) :
  forallb Js.is_whitespace (list_ascii_of_string s) = true -> Js.trim s = "".
Proof.
  intros H. unfold Js.trim. now rewrite (trimStart_whitespace s H).
Qed.

Lemma trimEnd_keeps_head (c : ascii) (r : string) :
  Js.is_whitespace c = false -> exists r', Js.trimEnd (String c r) = String c r'.
Proof.
  intros Hc. simpl. destruct (Js.trimEnd r) as [|d t].
  - rewrite Hc. now exists "".
  - now exists (String d t).
Qed.

Lemma trimStart_head (s : string) :
  Js.trimStart s = "" \/
  exists c r, Js.trimStart s = String c r /\ Js.is_whitespace c = false.
Proof.
  induction s as [|c r IH]; simpl; [now left |].
  destruct (Js.is_whitespace c) eqn:Hc; [exact IH |].
  right. now exists c, r.
Qed.

(** A trimmed string is empty or starts with a character that is not
    white space. *)
Lemma trim_head (s : string) :
  Js.trim s = "" \/ exists c r, Js.trim s = String c r /\ Js.is_whitespace c = false.
Proof.
  unfold Js.trim. destruct (trimStart_head s) as [E | (c & r & E & Hc)]; rewrite E.
  - now left.
  - right. destruct (trimEnd_keeps_head c r Hc) as [r' Hr']. now exists c, r'.
Qed.

Lemma trim_nonempty_of_head (c : ascii) (r : string) :
  Js.is_whitespace c = false -> Js.trim (String c r) <> "".
Proof.
  intros Hc. unfold Js.trim. simpl. rewrite Hc.
  destruct (trimEnd_keeps_head c r Hc) as [r' Hr']. rewrite Hr'. discriminate.
Qed.

Lemma split_nonempty (sep : ascii) (s : string) : Js.split sep s <> [].
Proof.
  destruct s as [|c r]; simpl; [discriminate |].
  destruct (Ascii.eqb c sep); [discriminate |].
  destruct (Js.split sep r); discriminate.
Qed.

(** The first piece of a split starts with the first character of the
    string, unless that is the separator. *)
Lemma split_head (sep c : ascii) (r : string) :
  Ascii.eqb c sep = false ->
  exists p ps, Js.split sep (String c r) = String c p :: ps.
Proof.
  intros Hc. simpl. rewrite Hc.
  destruct (Js.split sep r) as [|p ps] eqn:E.
  - now destruct (split_nonempty sep r).
  - now exists p, ps.
Qed.

End StringFacts.

Section TrimFacts.

Lemma trimStart_empty_whitespace (s : string) :
  Js.trimStart s = "" -> Argument.whitespace_only s = true.
Proof.
  unfold Argument.whitespace_only.
  induction s as [|c r IH]; simpl; [reflexivity |].
  destruct (Js.is_whitespace c); [exact IH | discriminate].
Qed.

(** [a.trim() === ''] says exactly that [a] is white space only. *)
Lemma trim_empty_iff (a : string) :
  Js.trim a = "" <-> Argument.whitespace_only a = true.
Proof.
  split; [| apply trim_whitespace].
  intros H. apply trimStart_empty_whitespace.
  destruct (trimStart_head a) as [E | (c & r & E & Hc)]; [exact E |].
  exfalso. unfold Js.trim in H. rewrite E in H.
  destruct (trimEnd_keeps_head c r Hc) as [r' Hr']. rewrite Hr' in H. discriminate.
Qed.

End TrimFacts.

(** ** How the argument string is read *)

Section ArgumentFacts.

Lemma argObj_absent : Argument.argObj None = inl (JObject []).
Proof. reflexivity. Qed.

Lemma argObj_whitespace (a : string) :
  Argument.whitespace_only a = true -> Argument.argObj (Some a) = inl (JObject []).
Proof.
  intros H. unfold Argument.argObj.
  destruct (String.eqb a ""); [reflexivity |].
  apply trim_empty_iff in H. rewrite H. reflexivity.
Qed.

Lemma argObj_braces : Argument.argObj (Some "{}") = inl (JObject []).
Proof. reflexivity. Qed.

Lemma argObj_parsed (a : string) :
  Argument.whitespace_only a = false ->
  Argument.argObj (Some a) =
    match Json.parse a with
    | Some v => inl v
    | None => inr (SyntaxError a)
    end.
Proof.
  intros H. unfold Argument.argObj.
  destruct (String.eqb_spec a "") as [-> | _]; [discriminate H |].
  destruct (String.eqb_spec (Js.trim a) "") as [E | _]; [| reflexivity].
  apply trim_empty_iff in E. congruence.
Qed.

End ArgumentFacts.

(** ** Running programs *)

Section EffectsFacts.
Local Open Scope prog_scope.

Variable P : provider.

(** A sequence runs its second part in the store the first part leaves,
    unless the first part threw or left the process. *)
Lemma exec_seq (p q : prog) (s : store) :
  exec P (p ;; q) s =
    match how (exec P p s) with
    | Returned =>
        {| final := final (exec P q (final (exec P p s)));
           trace := trace (exec P p s) ++ trace (exec P q (final (exec P p s)));
           how := how (exec P q (final (exec P p s))) |}
    | _ => exec P p s
    end.
Proof.
  revert s. induction p as [| e | c | ev k IH | k IH | s' k IH | req k IH]; intros s; simpl.
  - now destruct (exec P q s).
  - reflexivity.
  - reflexivity.
  - rewrite IH. now destruct (how (exec P k s)).
  - apply IH.
  - apply IH.
  - rewrite IH. now destruct (how (exec P (k (P req)) s)).
Qed.

(** A handler runs when, and only when, the body threw. *)
Lemma exec_try_catch (p : prog) (h : thrown -> prog) (s : store) :
  exec P (try_catch p h) s =
    match how (exec P p s) with
    | Threw e =>
        {| final := final (exec P (h e) (final (exec P p s)));
           trace := trace (exec P p s) ++ trace (exec P (h e) (final (exec P p s)));
           how := how (exec P (h e) (final (exec P p s))) |}
    | _ => exec P p s
    end.
Proof.
  revert s. induction p as [| e | c | ev k IH | k IH | s' k IH | req k IH]; intros s; simpl.
  - reflexivity.
  - now destruct (exec P (h e) s).
  - reflexivity.
  - rewrite IH. now destruct (how (exec P k s)).
  - apply IH.
  - apply IH.
  - rewrite IH. now destruct (how (exec P (k (P req)) s)).
Qed.

(** Writing a list of events writes them, in order, and nothing else. *)
Lemma exec_for_of_emit (evs : list event) (s : store) :
  exec P (for_of evs emit) s = {| final := s; trace := evs; how := Returned |}.
Proof.
  induction evs as [|ev r IH]; simpl; [reflexivity |].
  rewrite IH. reflexivity.
Qed.

End EffectsFacts.

Section RunFacts.
Local Open Scope prog_scope.

Lemma run_for_of_emit (evs : list event) (s : store) :
  run (for_of evs emit) s = {| final := s; trace := evs; how := Returned |}.
Proof.
  induction evs as [|ev r IH]; simpl; [reflexivity |].
  rewrite IH. reflexivity.
Qed.

(** A program that returns without suspending, followed by another. *)
Lemma run_seq_returned (p q : prog) (s s' : store) (out : list event) :
  run p s = {| final := s'; trace := out; how := Returned |} ->
  run (p ;; q) s =
    {| final := final (run q s'); trace := out ++ trace (run q s'); how := how (run q s') |}.
Proof.
  revert s s' out.
  induction p as [| e | c | ev k IH | k IH | s0 k IH | req k IH]; intros s s' out; simpl.
  - intros H. injection H as <- <-. now destruct (run q s).
  - discriminate.
  - discriminate.
  - destruct (run k s) as [f t h] eqn:E. unfold emitted. simpl.
    intros H. injection H as -> <- ->.
    rewrite (IH s s' t E). reflexivity.
  - apply IH.
  - apply IH.
  - discriminate.
Qed.

End RunFacts.

(** ** Discovery *)

Section DiscoveryFacts.
Local Open Scope prog_scope.

Variable P : provider.

(** The loop over the tools leaves the arrays as [refill] says, and
    throws the error that ended it, if one did. *)
Lemma exec_push_tools (tools : list Tool.t) (s : store) :
  exec P (for_of tools Wrapper.push_tool) s =
    {| final := set_config (fst (Wrapper.refill tools (config s))) s;
       trace := [];
       how := match snd (Wrapper.refill tools (config s)) with
              | None => Returned
              | Some error => Threw error
              end |}.
Proof.
  revert s. induction tools as [|tool rest IH]; intros s.
  - simpl. now destruct s.
  - cbn [for_of Wrapper.refill]. rewrite exec_seq. unfold Wrapper.push_tool.
    destruct (Wrapper.detail tool) as [text | error].
    + simpl. rewrite IH. simpl. reflexivity.
    + simpl. reflexivity.
Qed.

(** When every tool renders, the loop appends the entries of the tools
    to each array, in order, and no error ends it. *)
Lemma refill_rendered (tools : list Tool.t) (details : list string) (r : registry) :
  Wrapper.rendered tools = Some details ->
  Wrapper.refill tools r =
    ({| COMMANDS := COMMANDS r ++ map Tool.name tools;
        COMMANDS_INFO := COMMANDS_INFO r ++ map Wrapper.info tools;
        COMMANDS_DETAIL := COMMANDS_DETAIL r ++ details |}, None).
Proof.
  revert details r. induction tools as [|tool rest IH]; intros details r H.
  - simpl in H. injection H as <-. simpl. rewrite !app_nil_r. now destruct r.
  - simpl in H. cbn [Wrapper.refill].
    destruct (Wrapper.detail tool) as [text | error]; [| discriminate H].
    destruct (Wrapper.rendered rest) as [ds |]; [| discriminate H].
    injection H as <-. rewrite (IH ds _ eq_refl). simpl.
    now rewrite <- !app_assoc.
Qed.

(** When a tool does not render, an error ends the loop. *)
Lemma refill_not_rendered (tools : list Tool.t) (r : registry) :
  Wrapper.rendered tools = None -> exists error, snd (Wrapper.refill tools r) = Some error.
Proof.
  revert r. induction tools as [|tool rest IH]; intros r H; [discriminate H |].
  simpl in H. cbn [Wrapper.refill].
  destruct (Wrapper.detail tool) as [text | error]; [| now exists error].
  destruct (Wrapper.rendered rest) as [ds |] eqn:E; [discriminate H |].
  now apply IH.
Qed.

(** Every description the loop leaves satisfies what the descriptions
    before it and those of the tools satisfy. *)
Lemma refill_info (Q : string -> Prop) (tools : list Tool.t) (r : registry) :
  Forall Q (COMMANDS_INFO r) ->
  (forall tool, Q (Wrapper.info tool)) ->
  Forall Q (COMMANDS_INFO (fst (Wrapper.refill tools r))).
Proof.
  intros Hr Hq. revert r Hr. induction tools as [|tool rest IH]; intros r Hr; [exact Hr |].
  cbn [Wrapper.refill].
  assert (H1 : Forall Q (COMMANDS_INFO r ++ [Wrapper.info tool]))
    by (apply Forall_app; split; [exact Hr | constructor; [apply Hq | constructor]]).
  destruct (Wrapper.detail tool) as [text | error]; [apply IH; exact H1 | exact H1].
Qed.

(** The loop keeps names and descriptions in step; the rendered help is
    in step with them when no error ended the loop, and one entry short
    when one did. *)
Lemma refill_lengths (tools : list Tool.t) (r : registry) :
  length (COMMANDS_INFO r) = length (COMMANDS r) ->
  length (COMMANDS_DETAIL r) = length (COMMANDS r) ->
  length (COMMANDS_INFO (fst (Wrapper.refill tools r)))
    = length (COMMANDS (fst (Wrapper.refill tools r))) /\
  match snd (Wrapper.refill tools r) with
  | None => length (COMMANDS_DETAIL (fst (Wrapper.refill tools r)))
              = length (COMMANDS (fst (Wrapper.refill tools r)))
  | Some _ => S (length (COMMANDS_DETAIL (fst (Wrapper.refill tools r))))
                = length (COMMANDS (fst (Wrapper.refill tools r)))
  end.
Proof.
  revert r. induction tools as [|tool rest IH]; intros r Hi Hd; [now split |].
  cbn [Wrapper.refill]. destruct (Wrapper.detail tool) as [text | error].
  - apply IH; simpl; rewrite !length_app; simpl; lia.
  - simpl. rewrite !length_app. simpl. split; lia.
Qed.

(** The rendered help of a list of tools has one text per tool, the one
    built for the tool at the same index. *)
Lemma rendered_aligned (tools : list Tool.t) (details : list string) :
  Wrapper.rendered tools = Some details ->
  length details = length tools /\
  forall (i : nat) (tool : Tool.t),
    nth_error tools i = Some tool ->
    exists text, nth_error details i = Some text /\ Wrapper.detail tool = inl text.
Proof.
  revert details. induction tools as [|tool0 rest IH]; intros details H.
  - simpl in H. injection H as <-. split; [reflexivity |]. intros [|i] tool Hi; discriminate Hi.
  - simpl in H. destruct (Wrapper.detail tool0) as [text |] eqn:E; [| discriminate H].
    destruct (Wrapper.rendered rest) as [ds |]; [| discriminate H].
    injection H as <-. destruct (IH ds eq_refl) as [Hlen Hat]. split.
    + simpl. now rewrite Hlen.
    + intros [|i] tool Hi.
      * injection Hi as <-. now exists text.
      * apply (Hat i tool Hi).
Qed.

End DiscoveryFacts.

Section DiscoveryRounds.
Local Open Scope prog_scope.

Variable P : provider.

(** The line that ends a round whose tool list arrived. *)
Lemma exec_discoverTools_resolved (s : store) (c : Client) (tools : list Tool.t) :
  client s = Some c -> P ListTools = Resolved tools ->
  exec P Wrapper.discoverTools s =
    {| final := set_config (fst (Wrapper.refill tools Config.initial)) s;
       trace := [ call ListTools;
                  match snd (Wrapper.refill tools Config.initial) with
                  | None => Wrapper.discovered_banner tools
                  | Some error =>
                      console_warn [ Text "Warning: Could not discover tools from server:";
                                     Value error ]
                  end ];
       how := Returned |}.
Proof.
  intros Hc HP. unfold Wrapper.discoverTools. cbn [exec]. rewrite Hc.
  cbn [await try_catch exec]. rewrite HP.
  rewrite exec_try_catch.
  rewrite !exec_seq, exec_push_tools.
  change (config (final (exec P (Wrapper.on_config (Wrapper.set_COMMANDS_DETAIL []))
            (final (exec P (Wrapper.on_config (Wrapper.set_COMMANDS_INFO []))
               (final (exec P (Wrapper.on_config (Wrapper.set_COMMANDS [])) s)))))))
    with Config.initial.
  destruct (snd (Wrapper.refill tools Config.initial)) as [error |]; reflexivity.
Qed.

(** A round all of whose tools render. *)
Lemma exec_discoverTools_rendered (s : store) (c : Client) (tools : list Tool.t)
    (details : list string) :
  client s = Some c -> P ListTools = Resolved tools ->
  Wrapper.rendered tools = Some details ->
  exec P Wrapper.discoverTools s =
    {| final := set_config (Wrapper.registry_of tools details) s;
       trace := [call ListTools; Wrapper.discovered_banner tools];
       how := Returned |}.
Proof.
  intros Hc HP Hr. rewrite (exec_discoverTools_resolved s c tools Hc HP).
  rewrite (refill_rendered tools details Config.initial Hr). reflexivity.
Qed.

Lemma exec_discoverTools_rejected (s : store) (c : Client) (error : thrown) :
  client s = Some c -> P ListTools = Rejected error ->
  exec P Wrapper.discoverTools s =
    {| final := s;
       trace := [call ListTools; console_warn [Text "Warning: Could not discover tools from server:"; Value error]];
       how := Returned |}.
Proof.
  intros Hc HP. unfold Wrapper.discoverTools. cbn [exec]. rewrite Hc.
  cbn [await try_catch exec]. rewrite HP.
  reflexivity.
Qed.

Lemma exec_discoverTools_no_client (s : store) :
  client s = None ->
  exec P Wrapper.discoverTools s = {| final := s; trace := []; how := Returned |}.
Proof.
  intros Hc. unfold Wrapper.discoverTools. cbn [exec]. rewrite Hc. reflexivity.
Qed.

(** Whatever the provider does, a round returns normally, changes
    nothing of the store but the registry, and invokes no tool. *)
Lemma exec_discoverTools_returns (s : store) :
  let o := exec P Wrapper.discoverTools s in
  how o = Returned /\
  final o = set_config (config (final o)) s /\
  invocations (trace o) = [] /\
  (forall code : nat, ~ In (process_exit code) (trace o)).
Proof.
  cbv zeta. destruct (client s) as [c |] eqn:Hc.
  - destruct (P ListTools) as [tools | error] eqn:HP.
    + rewrite (exec_discoverTools_resolved s c tools Hc HP). cbn [how final trace].
      split; [reflexivity |]. split; [reflexivity |].
      unfold Wrapper.discovered_banner.
      destruct (snd (Wrapper.refill tools Config.initial)); (split; [reflexivity |]);
        intros code H; simpl in H; destruct H as [H | [H | []]]; discriminate H.
    + rewrite (exec_discoverTools_rejected s c error Hc HP). cbn [how final trace].
      split; [reflexivity |]. split; [now destruct s |]. split; [reflexivity |].
      intros code H. simpl in H. destruct H as [H | [H | []]]; discriminate H.
  - rewrite (exec_discoverTools_no_client s Hc). cbn [how final trace].
    split; [reflexivity |]. split; [now destruct s |]. split; [reflexivity |].
    intros code [].
Qed.
End DiscoveryRounds.

(** The scenarios of the specification, run on the model. *)
Example scenario_discovery :
  config (final (exec Samples.obliging Wrapper.connect Samples.unconnected))
    = {| COMMANDS := ["get_current_page"; "navigate_page"];
         COMMANDS_INFO := ["No description available"; "No description available"];
         COMMANDS_DETAIL :=
           [ Js.nl ++ "Parameters:" ++ Js.nl ++ "No parameters required" ++ Js.nl
               ++ Js.nl ++ "Example:" ++ Js.nl ++ "get_current_page {}" ++ Js.nl;
             Js.nl ++ "Parameters:" ++ Js.nl ++ "- pageId (required): string - " ++ Js.nl
               ++ Js.nl ++ "Example:" ++ Js.nl
               ++ "navigate_page {" ++ Js.dquote ++ "pageId" ++ Js.dquote ++ ":"
               ++ Js.dquote ++ "<pageId>" ++ Js.dquote ++ "}" ++ Js.nl ] |}.
Proof. reflexivity. Qed.

Example scenario_unreachable :
  exec Samples.unreachable Wrapper.connect Samples.unconnected
    = {| final := set_client (Some Wrapper.cli) Samples.unconnected;
         trace := (call (Connect Wrapper.cli)
                     :: console_error [ Text "Failed to connect to Figma Desktop MCP server:";
                                        Value (Error "Connection failed") ]
                     :: Remediation.checklist ++ [process_exit 1])%list;
         how := Exited 1 |}.
Proof. reflexivity. Qed.

Example scenario_one_shot :
  trace (exec Samples.obliging
           (Runner.runCommand "navigate_page" (Some Samples.spaced_argument) None)
           Samples.unconnected)
    = [ console_log ("navigate_page " ++ Samples.spaced_argument);
        call (Connect Runner.headless);
        call (CallTool "navigate_page" Samples.page_argument);
        console_log "{}";
        call Close;
        process_exit 0 ].
Proof. reflexivity. Qed.

Example scenario_undiscoverable :
  exec Samples.undiscoverable Wrapper.discoverTools Samples.discovered
    = {| final := Samples.discovered;
         trace := [ call ListTools;
                    console_warn [ Text "Warning: Could not discover tools from server:";
                                   Value (Error "Request timed out") ] ];
         how := Returned |}.
Proof. reflexivity. Qed.

(** C2 fails on the code.  The tool list of a round arrives with three
    tools, the second of which declares a property whose value is [null].
    The arrays are cleared, the first tool is pushed whole, the name and
    the description of the second are pushed, and reading [value.type]
    then throws inside the same [try]: the round ends in the warning with
    a registry that lists two names and two descriptions, one rendered
    help, and the third tool not at all.  That is so in a fresh session
    and with the registry of an earlier round alike; the registry is
    neither the one held before nor the one of the tools received. *)
Theorem discovery_leaves_partial_registry :
  let partial :=
    {| COMMANDS := ["get_current_page"; "set_variable"];
       COMMANDS_INFO := ["No description available"; "No description available"];
       COMMANDS_DETAIL :=
         [ Js.nl ++ "Parameters:" ++ Js.nl ++ "No parameters required" ++ Js.nl
             ++ Js.nl ++ "Example:" ++ Js.nl ++ "get_current_page {}" ++ Js.nl ] |} in
  let o := exec Samples.misdeclaring Wrapper.discoverTools Samples.discovered in
  Samples.misdeclaring ListTools = Resolved Samples.tools_with_null /\
  how o = Returned /\
  trace o = [ call ListTools;
              console_warn [ Text "Warning: Could not discover tools from server:";
                             Value Wrapper.null_value_error ] ] /\
  config (final o) = partial /\
  config (final o) <> config Samples.discovered /\
  COMMANDS (config (final o)) <> map Tool.name Samples.tools_with_null /\
  config (final (exec Samples.misdeclaring Wrapper.discoverTools Samples.connected))
    = partial /\
  partial <> config Samples.connected.
Proof.
  cbv zeta. split; [reflexivity |]. split; [reflexivity |]. split; [reflexivity |].
  split; [reflexivity |].
  split; [intros H; vm_compute in H; discriminate H |].
  split; [intros H; vm_compute in H; discriminate H |].
  split; [reflexivity |]. intros H. vm_compute in H. discriminate H.
Qed.

(** C6 fails on the code.  In a fresh session the tool list arrives with
    three tools, the second of which declares a property whose value is
    [null].  The name and the description of a tool are pushed before its
    help is built and the help after, so the throw on the [null] value
    leaves the views with lengths 2, 2 and 1: at index 1 there are the
    name and the description of [set_variable] and no rendered help. *)
Theorem registry_views_misaligned :
  let r := config (final (exec Samples.misdeclaring Wrapper.discoverTools
                            Samples.connected)) in
  Samples.misdeclaring ListTools = Resolved Samples.tools_with_null /\
  length (COMMANDS r) = 2 /\
  length (COMMANDS_INFO r) = 2 /\
  length (COMMANDS_DETAIL r) = 1 /\
  nth_error (COMMANDS r) 1 = Some "set_variable" /\
  nth_error (COMMANDS_INFO r) 1 = Some "No description available" /\
  nth_error (COMMANDS_DETAIL r) 1 = None.
Proof.
  cbv zeta. split; [reflexivity |]. split; [reflexivity |]. split; [reflexivity |].
  split; [reflexivity |]. split; [reflexivity |]. split; reflexivity.
Qed.

(** ** Rendered help *)

Section DetailFacts.

Lemma includes_In (a : list string) (x : string) : In x a -> Js.includes a x = true.
Proof.
  intros H. unfold Js.includes. apply existsb_exists. exists x. split; [exact H |].
  apply String.eqb_refl.
Qed.

(** The text the entries add to the rendered help, one line each. *)
Lemma parameter_lines_text (required : list string)
    (ps : list (string * option Property.t)) (d : string) :
  Wrapper.object_valued ps = true ->
  exists lines, Wrapper.parameter_lines required ps d = inl (d ++ lines).
Proof.
  revert d. induction ps as [|[key [value |]] ps IH]; intros d H.
  - exists "". simpl. now rewrite append_empty_r.
  - simpl in H. destruct (IH (d ++ Wrapper.parameter_line required (key, value)) H)
      as [lines Hl].
    exists (Wrapper.parameter_line required (key, value) ++ lines).
    cbn [Wrapper.parameter_lines]. rewrite Hl. now rewrite append_assoc.
  - discriminate H.
Qed.

(** The line of an entry is part of that text. *)
Lemma parameter_lines_contain (required : list string)
    (ps : list (string * option Property.t)) (d key : string) (value : Property.t) :
  Wrapper.object_valued ps = true ->
  In (key, Some value) ps ->
  exists before after,
    Wrapper.parameter_lines required ps d
      = inl (d ++ before ++ Wrapper.parameter_line required (key, value) ++ after).
Proof.
  revert d. induction ps as [|[k [v |]] ps IH]; intros d H Hin.
  - destruct Hin.
  - simpl in H. cbn [Wrapper.parameter_lines]. destruct Hin as [E | Hin].
    + injection E as -> ->.
      destruct (parameter_lines_text required ps
                  (d ++ Wrapper.parameter_line required (key, value)) H) as [lines Hl].
      exists "", lines. rewrite Hl. cbn [append]. now rewrite append_assoc.
    + destruct (IH (d ++ Wrapper.parameter_line required (k, v)) H Hin)
        as (before & after & Hl).
      exists (Wrapper.parameter_line required (k, v) ++ before), after.
      rewrite Hl. now rewrite !append_assoc.
  - discriminate H.
Qed.

(** A [null] value among the entries ends the loop by the TypeError. *)
Lemma parameter_lines_null (required : list string)
    (ps : list (string * option Property.t)) (d : string) :
  Wrapper.object_valued ps = false ->
  Wrapper.parameter_lines required ps d = inr Wrapper.null_value_error.
Proof.
  revert d. induction ps as [|[key [value |]] ps IH]; intros d H.
  - discriminate H.
  - simpl in H. cbn [Wrapper.parameter_lines]. now apply IH.
  - reflexivity.
Qed.

(** The line of a declared property is part of the rendered help, when
    no declared property has the value [null]. *)
Lemma detail_contains_line (tool : Tool.t) (schema : Schema.t)
    (ps : list (string * option Property.t)) (key : string) (value : Property.t) :
  Tool.inputSchema tool = Some schema ->
  Schema.properties schema = Some (Some ps) ->
  Wrapper.object_valued ps = true ->
  In (key, Some value) ps ->
  exists text,
    Wrapper.detail tool = inl text /\
    contains
      (Wrapper.parameter_line
         (match Schema.required schema with Some r => r | None => [] end) (key, value))
      text.
Proof.
  intros Hs Hp Hobj Hin. unfold Wrapper.detail. rewrite Hs, Hp. cbn [Wrapper.entries].
  destruct (parameter_lines_contain
              (match Schema.required schema with Some r => r | None => [] end)
              ps (Js.nl ++ "Parameters:" ++ Js.nl) key value Hobj Hin)
    as (before & after & Hl).
  rewrite Hl. eexists. split; [reflexivity |].
  set (line := Wrapper.parameter_line _ _).
  exists ((Js.nl ++ "Parameters:" ++ Js.nl) ++ before),
         (after ++ Js.nl ++ "Example:" ++ Js.nl ++ Tool.name tool ++ " "
            ++ Wrapper.example tool ++ Js.nl).
  now rewrite !append_assoc.
Qed.

End DetailFacts.

(** C5.  The rendered help is a function of the tool's name and input
    shape, laid out as follows.  A tool with no input shape gets the
    parameters section [Parameters:] then [No parameters required], and
    the example [<name> {}].  A tool whose input shape declares the one
    property [pageId], of type string and listed as required, gets the
    line [- pageId (required): string - ] followed by the description, and
    the example [<name> {"pageId":"<pageId>"}], which for [navigate_page]
    reads [navigate_page {"pageId":"<pageId>"}].  Whatever else the shape
    declares, with values that are not [null], a property [pageId] of
    type string that is listed as required has that line in the rendered
    help. *)
Theorem detail_help_layout :
  (forall (name : string) (description : option string),
      Wrapper.detail {| Tool.name := name; Tool.description := description;
                        Tool.inputSchema := None |}
      = inl (Js.nl ++ "Parameters:" ++ Js.nl ++ "No parameters required" ++ Js.nl
               ++ Js.nl ++ "Example:" ++ Js.nl ++ name ++ " {}" ++ Js.nl)) /\
  (forall (name : string) (description text : option string),
      Wrapper.detail
        {| Tool.name := name; Tool.description := description;
           Tool.inputSchema :=
             Some {| Schema.properties :=
                       Some (Some [("pageId", Some {| Property.type := Some "string";
                                                      Property.description := text |})]);
                     Schema.required := Some ["pageId"] |} |}
      = inl (Js.nl ++ "Parameters:" ++ Js.nl
               ++ "- pageId (required): string - " ++ Js.or_else text "" ++ Js.nl
               ++ Js.nl ++ "Example:" ++ Js.nl
               ++ name ++ " {" ++ Js.dquote ++ "pageId" ++ Js.dquote ++ ":"
               ++ Js.dquote ++ "<pageId>" ++ Js.dquote ++ "}" ++ Js.nl)) /\
  (forall (tool : Tool.t) (schema : Schema.t) (ps : list (string * option Property.t))
          (req : list string) (value : Property.t),
      Tool.inputSchema tool = Some schema ->
      Schema.properties schema = Some (Some ps) ->
      Schema.required schema = Some req ->
      Wrapper.object_valued ps = true ->
      In ("pageId", Some value) ps ->
      Property.type value = Some "string" ->
      In "pageId" req ->
      exists text,
        Wrapper.detail tool = inl text /\
        contains ("- pageId (required): string - "
                    ++ Js.or_else (Property.description value) "" ++ Js.nl)
                 text) /\
  (forall tool tool' : Tool.t,
      Tool.name tool = Tool.name tool' ->
      Tool.inputSchema tool = Tool.inputSchema tool' ->
      Wrapper.detail tool = Wrapper.detail tool').
Proof.
  split; [| split; [| split]].
  - intros name description. unfold Wrapper.detail, Wrapper.example.
    cbn [Tool.inputSchema Tool.name]. rewrite !append_assoc. reflexivity.
  - intros name description text.
    unfold Wrapper.detail, Wrapper.example.
    cbn [Tool.inputSchema Tool.name Schema.properties Schema.required
         Wrapper.entries Wrapper.parameter_lines map fst].
    unfold Wrapper.parameter_line. cbn [Property.type Property.description].
    change (Js.includes ["pageId"] "pageId") with true.
    change (Js.or_else (Some "string") "any") with "string".
    change (stringify (Wrapper.placeholders ["pageId"]))
      with ("{" ++ Js.dquote ++ "pageId" ++ Js.dquote ++ ":"
                ++ Js.dquote ++ "<pageId>" ++ Js.dquote ++ "}").
    cbv iota. rewrite !append_assoc. reflexivity.
  - intros tool schema ps req value Hs Hp Hr Hobj Hin Hty Hreq.
    destruct (detail_contains_line tool schema ps "pageId" value Hs Hp Hobj Hin)
      as (text & Ht & H).
    exists text. split; [exact Ht |].
    rewrite Hr in H. unfold Wrapper.parameter_line in H.
    rewrite (includes_In req "pageId" Hreq), Hty in H.
    change (Js.or_else (Some "string") "any") with "string" in H.
    cbv iota in H. exact H.
  - intros tool tool' Hn Hs. unfold Wrapper.detail, Wrapper.example.
    now rewrite Hn, Hs.
Qed.

Lemma detail_help_layout_witness :
  Wrapper.detail Samples.get_current_page
    = inl (Js.nl ++ "Parameters:" ++ Js.nl ++ "No parameters required" ++ Js.nl
             ++ Js.nl ++ "Example:" ++ Js.nl ++ "get_current_page {}" ++ Js.nl) /\
  (exists text,
      Wrapper.detail Samples.navigate_page = inl text /\
      contains ("- pageId (required): string - " ++ Js.nl) text) /\
  (exists text,
      Wrapper.detail Samples.navigate_page = inl text /\
      contains ("navigate_page {" ++ Js.dquote ++ "pageId" ++ Js.dquote ++ ":"
                  ++ Js.dquote ++ "<pageId>" ++ Js.dquote ++ "}" ++ Js.nl)
               text).
Proof.
  destruct detail_help_layout as (Hnone & Hone & Hline & _).
  split; [exact (Hnone "get_current_page" None) |].
  split.
  - apply (Hline Samples.navigate_page
             {| Schema.properties := Some (Some [("pageId", Some Samples.pageId)]);
                Schema.required := Some ["pageId"] |}
             [("pageId", Some Samples.pageId)] ["pageId"] Samples.pageId);
      simpl; auto.
  - unfold Samples.navigate_page, Samples.pageId. rewrite (Hone "navigate_page" None None).
    eexists. split; [reflexivity |].
    exists (Js.nl ++ "Parameters:" ++ Js.nl ++ "- pageId (required): string - " ++ Js.nl
              ++ Js.nl ++ "Example:" ++ Js.nl), "".
    reflexivity.
Defined.

(** ** How a line is routed *)

Section RoutingFacts.
Local Open Scope prog_scope.

(** A line that is neither empty nor a control word is split at its
    spaces: the first piece names the command, and the second piece,
    when there is one, is either [-h] or the argument. *)
Lemma handleCommand_dispatch (line : string) :
  Wrapper.is_control (Js.trim line) = false ->
  Wrapper.handleCommand line =
    let parts := Js.split " " (Js.trim line) in
    if Wrapper.is_dash_h (hd_error (tl parts))
    then Helpers.printCommandDetail (hd "" parts) ;; emit rl_prompt
    else Wrapper.runCommand (hd "" parts) (hd_error (tl parts)).
Proof.
  unfold Wrapper.is_control, Wrapper.handleCommand. intros H.
  repeat (apply orb_false_iff in H; destruct H as [H ?]).
  repeat match goal with E : String.eqb _ _ = false |- _ => rewrite E; clear E end.
  reflexivity.
Qed.

(** A line with a space in it is not a control word. *)
Lemma two_pieces_not_control (t command second : string) (rest : list string) :
  Js.split " " t = command :: second :: rest -> Wrapper.is_control t = false.
Proof.
  intros H. unfold Wrapper.is_control.
  repeat match goal with
         | |- context [String.eqb t ?w] =>
             destruct (String.eqb_spec t w) as [-> | _]; [discriminate H |]
         end.
  reflexivity.
Qed.

(** The first piece of a trimmed line does not trim to nothing. *)
Lemma command_not_blank (line command : string) (rest : list string) :
  Js.trim line <> "" ->
  Js.split " " (Js.trim line) = command :: rest ->
  Js.trim command <> "".
Proof.
  intros Hne Hsplit.
  destruct (trim_head line) as [E | (c & r & E & Hc)]; [contradiction |].
  rewrite E in Hsplit.
  assert (Hsp : Ascii.eqb c " " = false).
  { destruct (Ascii.eqb_spec c " ") as [-> | _]; [discriminate Hc | reflexivity]. }
  destruct (split_head " " c r Hsp) as (p & ps & Hp).
  rewrite Hp in Hsplit. injection Hsplit as <- _.
  now apply trim_nonempty_of_head.
Qed.

Lemma indexOf_None (names : list string) (x : string) :
  ~ In x names -> Helpers.indexOf names x = None.
Proof.
  induction names as [|n r IH]; simpl; [reflexivity |].
  intros H. destruct (String.eqb_spec n x) as [-> | _].
  - exfalso. apply H. now left.
  - rewrite IH; [reflexivity |]. intros Hin. apply H. now right.
Qed.

(** What [printCommandDetail] does, once for all names: it returns,
    leaves the store alone and writes to the console only. *)
Lemma run_printAvailableCommands (s : store) :
  run Helpers.printAvailableCommands s =
    {| final := s; trace := Helpers.listing (config s); how := Returned |}.
Proof.
  unfold Helpers.printAvailableCommands. cbn [run]. apply run_for_of_emit.
Qed.

Lemma numbered_console (idx : nat) (names infos : list string) :
  Forall is_console_log (Helpers.numbered idx names infos).
Proof.
  revert idx. induction names as [|n r IH]; intros idx; simpl; constructor.
  - exact I.
  - apply IH.
Qed.

Lemma listing_console (r : registry) : Forall is_console_log (Helpers.listing r).
Proof.
  unfold Helpers.listing. constructor; [exact I | apply numbered_console].
Qed.

Lemma run_printCommandDetail (command : string) (s : store) :
  exists out,
    run (Helpers.printCommandDetail command) s =
      {| final := s; trace := out; how := Returned |} /\
    Forall is_console_log out /\
    (Js.trim command <> "" ->
     ~ In (Js.trim command) (COMMANDS (config s)) ->
     out = console_log ("Unknown command: " ++ Js.trim command)
             :: Helpers.listing (config s)).
Proof.
  unfold Helpers.printCommandDetail.
  destruct (String.eqb_spec (Js.trim command) "") as [E | Hne].
  - eexists. split; [| split].
    + erewrite run_seq_returned by reflexivity.
      rewrite run_printAvailableCommands. reflexivity.
    + constructor; [exact I | apply listing_console].
    + intros H. contradiction.
  - cbn [run].
    destruct (Helpers.indexOf (COMMANDS (config s)) (Js.trim command)) as [idx|] eqn:Hi.
    + eexists. split; [reflexivity | split].
      * repeat constructor.
      * intros _ Hnot. rewrite (indexOf_None _ _ Hnot) in Hi. discriminate.
    + eexists. split; [| split].
      * erewrite run_seq_returned by reflexivity.
        rewrite run_printAvailableCommands. reflexivity.
      * constructor; [exact I | apply listing_console].
      * reflexivity.
Qed.

End RoutingFacts.

(** ** Invocations *)

Section InvocationFacts.
Local Open Scope prog_scope.

(** The interactive dispatcher, up to its suspension. *)
Lemma run_runCommand_invokes (s : store) (c : Client) (command : string)
    (arg : option string) (o : json) :
  client s = Some c ->
  Argument.argObj arg = inl o ->
  exists k,
    run (Wrapper.runCommand command arg) s =
      {| final := s;
         trace := [Wrapper.echo command arg; call (CallTool command o)];
         how := Suspended (CallTool command o) k |} /\
    (forall (result : string) (s' : store),
        run (k (Resolved result)) s' =
          {| final := s'; trace := [console_log result; rl_prompt]; how := Returned |}) /\
    (forall (error : thrown) (s' : store),
        run (k (Rejected error)) s' =
          {| final := s'; trace := [Wrapper.failure_line error; rl_prompt];
             how := Returned |}).
Proof.
  intros Hc Ha. unfold Wrapper.runCommand. cbn [run]. rewrite Hc, Ha.
  eexists. split; [reflexivity |]. split; reflexivity.
Qed.

Lemma run_runCommand_malformed (s : store) (c : Client) (command : string)
    (arg : option string) (error : thrown) :
  client s = Some c ->
  Argument.argObj arg = inr error ->
  run (Wrapper.runCommand command arg) s =
    {| final := s;
       trace := [Wrapper.echo command arg; Wrapper.failure_line error; rl_prompt];
       how := Returned |}.
Proof.
  intros Hc Ha. unfold Wrapper.runCommand. cbn [run]. rewrite Hc, Ha. reflexivity.
Qed.

Lemma run_runCommand_no_client (s : store) (command : string) (arg : option string) :
  client s = None ->
  run (Wrapper.runCommand command arg) s =
    {| final := s;
       trace := [console_log "MCP server not available!"; rl_prompt];
       how := Returned |}.
Proof.
  intros Hc. unfold Wrapper.runCommand. cbn [run]. rewrite Hc. reflexivity.
Qed.

Variable P : provider.

(** The interactive dispatcher, run to its end. *)
Lemma exec_runCommand_invokes (s : store) (c : Client) (command : string)
    (arg : option string) (o : json) :
  client s = Some c ->
  Argument.argObj arg = inl o ->
  exec P (Wrapper.runCommand command arg) s =
    {| final := s;
       trace := Wrapper.echo command arg :: call (CallTool command o)
                  :: match P (CallTool command o) with
                     | Resolved result => [console_log result; rl_prompt]
                     | Rejected error => [Wrapper.failure_line error; rl_prompt]
                     end;
       how := Returned |}.
Proof.
  intros Hc Ha. unfold Wrapper.runCommand. cbn [exec]. rewrite Hc, Ha.
  cbn [seq try_catch emit await exec]. unfold emitted. cbn [final trace how].
  destruct (P (CallTool command o)); reflexivity.
Qed.

Lemma exec_runCommand_malformed (s : store) (c : Client) (command : string)
    (arg : option string) (error : thrown) :
  client s = Some c ->
  Argument.argObj arg = inr error ->
  exec P (Wrapper.runCommand command arg) s =
    {| final := s;
       trace := [Wrapper.echo command arg; Wrapper.failure_line error; rl_prompt];
       how := Returned |}.
Proof.
  intros Hc Ha. unfold Wrapper.runCommand. cbn [exec]. rewrite Hc, Ha. reflexivity.
Qed.

Lemma exec_runCommand_no_client (s : store) (command : string) (arg : option string) :
  client s = None ->
  exec P (Wrapper.runCommand command arg) s =
    {| final := s;
       trace := [console_log "MCP server not available!"; rl_prompt];
       how := Returned |}.
Proof.
  intros Hc. unfold Wrapper.runCommand. cbn [exec]. rewrite Hc. reflexivity.
Qed.

(** The one-shot runner, case by case. *)
Lemma runner_connect_rejected (s : store) (command : string) (arg flag : option string)
    (error : thrown) :
  P (Connect Runner.headless) = Rejected error ->
  exec P (Runner.runCommand command arg flag) s =
    {| final := s;
       trace := Runner.echo command arg flag :: call (Connect Runner.headless)
                  :: Runner.report error;
       how := Exited 1 |}.
Proof.
  intros Hc. unfold Runner.runCommand. cbn [seq try_catch emit await exec].
  rewrite Hc. reflexivity.
Qed.

Lemma runner_parse_failed (s : store) (command : string) (arg flag : option string)
    (u : unit) (error : thrown) :
  P (Connect Runner.headless) = Resolved u ->
  Argument.argObj arg = inr error ->
  exec P (Runner.runCommand command arg flag) s =
    {| final := s;
       trace := Runner.echo command arg flag :: call (Connect Runner.headless)
                  :: Runner.report error;
       how := Exited 1 |}.
Proof.
  intros Hc Ha. unfold Runner.runCommand. cbn [seq try_catch emit await exec].
  rewrite Hc, Ha. reflexivity.
Qed.

Lemma runner_invokes (s : store) (command : string) (arg flag : option string)
    (u : unit) (o : json) :
  P (Connect Runner.headless) = Resolved u ->
  Argument.argObj arg = inl o ->
  exec P (Runner.runCommand command arg flag) s =
    {| final := s;
       trace := Runner.echo command arg flag :: call (Connect Runner.headless)
                  :: call (CallTool command o)
                  :: match P (CallTool command o) with
                     | Rejected error => Runner.report error
                     | Resolved result =>
                         console_log result :: call Close
                           :: match P Close with
                              | Rejected error => Runner.report error
                              | Resolved _ => [process_exit 0]
                              end
                     end;
       how := match P (CallTool command o) with
              | Rejected _ => Exited 1
              | Resolved _ => match P Close with
                              | Rejected _ => Exited 1
                              | Resolved _ => Exited 0
                              end
              end |}.
Proof.
  intros Hc Ha. unfold Runner.runCommand. cbn [seq try_catch emit await exec].
  rewrite Hc, Ha. cbn [seq try_catch emit await exec].
  destruct (P (CallTool command o)); [| reflexivity].
  cbn [seq try_catch emit await exec].
  destruct (P Close); reflexivity.
Qed.

End InvocationFacts.

(** ** The argument of an interactive line *)

Section LineArgumentFacts.

(** What reaches the interactive dispatcher is the second piece of the
    split alone; the pieces after it are dropped. *)
Lemma handleCommand_passes_second_piece
    (line command second : string) (rest : list string) :
  Js.split " " (Js.trim line) = command :: second :: rest ->
  String.eqb second "-h" = false ->
  Wrapper.handleCommand line = Wrapper.runCommand command (Some second).
Proof.
  intros Hsplit Hh.
  rewrite (handleCommand_dispatch line (two_pieces_not_control _ _ _ _ Hsplit)).
  cbv zeta. rewrite Hsplit. cbn [tl hd hd_error Wrapper.is_dash_h]. now rewrite Hh.
Qed.

End LineArgumentFacts.

(** C1 (as amended).  An argument string that is not white space only and
    that [JSON.parse] rejects stops the dispatch before any provider
    invocation.  In interactive mode, with a client held, the echo is
    followed by the error line carrying the parse error's message and by
    a new prompt; the store is unchanged and the handler returns.  In
    one-shot mode the run ends with exit status 1 and no invocation is
    made, whatever the provider does; when the connection was made, the
    failure reported is the parse error.  A line of the loop that carries
    such an argument leaves the loop as it was: same store, same pending
    handlers, process alive. *)
Theorem malformed_argument_stops_dispatch (command a : string) :
  Argument.whitespace_only a = false ->
  Json.parse a = None ->
  (forall (s : store) (c : Client),
      client s = Some c ->
      run (Wrapper.runCommand command (Some a)) s =
        {| final := s;
           trace := [ Wrapper.echo command (Some a);
                      console_error [Text "Error running command:"; SyntaxErrorMessage a];
                      rl_prompt ];
           how := Returned |}) /\
  (forall (m : Wrapper.machine) (c : Client) (line : string) (rest : list string),
      Wrapper.exit_code m = None ->
      rl_closed (Wrapper.mem m) = false ->
      client (Wrapper.mem m) = Some c ->
      Js.split " " (Js.trim line) = command :: a :: rest ->
      String.eqb a "-h" = false ->
      Wrapper.step m (Wrapper.Line line) =
        (m, [ Wrapper.echo command (Some a);
              console_error [Text "Error running command:"; SyntaxErrorMessage a];
              rl_prompt ])) /\
  (forall (P : provider) (flag : option string) (s : store),
      let o := exec P (Runner.runCommand command (Some a) flag) s in
      how o = Exited 1 /\
      invocations (trace o) = [] /\
      (forall u : unit,
          P (Connect Runner.headless) = Resolved u ->
          trace o = Runner.echo command (Some a) flag :: call (Connect Runner.headless)
                      :: Runner.report (SyntaxError a))).
Proof.
  intros Hws Hp.
  assert (Ha : Argument.argObj (Some a) = inr (SyntaxError a)).
  { rewrite (argObj_parsed a Hws), Hp. reflexivity. }
  split; [| split].
  - intros s c Hc. apply (run_runCommand_malformed s c command (Some a) _ Hc Ha).
  - intros m c line rest Hlive Hopen Hc Hsplit Hh. unfold Wrapper.step.
    rewrite Hlive, Hopen, (handleCommand_passes_second_piece line command a rest Hsplit Hh).
    rewrite (run_runCommand_malformed _ c command (Some a) _ Hc Ha).
    unfold Wrapper.absorb. cbn [how final trace].
    destruct m as [mem pending code]. cbn [Wrapper.exit_code] in Hlive. now rewrite Hlive.
  - intros P flag s. cbv zeta.
    destruct (P (Connect Runner.headless)) as [u | error] eqn:HP.
    + rewrite (runner_parse_failed P s command (Some a) flag u _ HP Ha).
      split; [reflexivity | split; [reflexivity | intros u' _; reflexivity]].
    + rewrite (runner_connect_rejected P s command (Some a) flag error HP).
      split; [reflexivity | split; [reflexivity | intros u' H; discriminate H]].
Qed.

Lemma malformed_argument_stops_dispatch_witness :
  run (Wrapper.runCommand "get_current_page" (Some "not json")) Samples.connected =
    {| final := Samples.connected;
       trace := [ console_log "get_current_page not json";
                  console_error [Text "Error running command:"; SyntaxErrorMessage "not json"];
                  rl_prompt ];
       how := Returned |} /\
  how (exec Samples.obliging (Runner.runCommand "get_current_page" (Some "not json") None)
         Samples.unconnected) = Exited 1.
Proof.
  destruct (malformed_argument_stops_dispatch "get_current_page" "not json" eq_refl eq_refl)
    as (Hi & _ & Ho).
  split.
  - exact (Hi Samples.connected Wrapper.cli eq_refl).
  - exact (proj1 (Ho Samples.obliging None Samples.unconnected)).
Defined.

(** C1, as first stated, fails: [42] is neither absent, empty, white
    space only nor a JSON object, yet both dispatchers hand it to the
    provider, and the one-shot run ends with exit status 0. *)
Lemma bare_number_reaches_provider :
  Argument.whitespace_only "42" = false /\
  Argument.parses_to_object "42" = false /\
  invocations
    (trace (run (Wrapper.runCommand "get_current_page" (Some "42")) Samples.connected))
    = [("get_current_page", JNumber (Js.code_units "42"))] /\
  invocations
    (trace (exec Samples.obliging
              (Runner.runCommand "get_current_page" (Some "42") None) Samples.unconnected))
    = [("get_current_page", JNumber (Js.code_units "42"))] /\
  how (exec Samples.obliging
         (Runner.runCommand "get_current_page" (Some "42") None) Samples.unconnected)
    = Exited 0.
Proof. repeat split. Qed.

(** C3.  For every command name, a null argument, the empty string and a
    string of white space only are read as the string [{}] is: the
    argument object is the empty object.  The interactive dispatcher
    (with a client held) and the one-shot runner (once connected) then
    make exactly one invocation, of that command with the empty object,
    and apart from the echo of the request every run is the run on
    [{}]. *)
Theorem blank_argument_is_empty_object (command ws : string) (arg : option string) :
  Argument.whitespace_only ws = true ->
  In arg [None; Some ""; Some ws; Some "{}"] ->
  Argument.argObj arg = inl (JObject []) /\
  (forall (s : store) (c : Client),
      client s = Some c ->
      trace (run (Wrapper.runCommand command arg) s)
        = [Wrapper.echo command arg; call (CallTool command (JObject []))]) /\
  (forall (P : provider) (s : store),
      let o := exec P (Wrapper.runCommand command arg) s in
      let o' := exec P (Wrapper.runCommand command (Some "{}")) s in
      tl (trace o) = tl (trace o') /\ final o = final o' /\ how o = how o') /\
  (forall (P : provider) (flag : option string) (s : store) (u : unit),
      P (Connect Runner.headless) = Resolved u ->
      invocations (trace (exec P (Runner.runCommand command arg flag) s))
        = [(command, JObject [])]) /\
  (forall (P : provider) (flag : option string) (s : store),
      let o := exec P (Runner.runCommand command arg flag) s in
      let o' := exec P (Runner.runCommand command (Some "{}") flag) s in
      tl (trace o) = tl (trace o') /\ final o = final o' /\ how o = how o').
Proof.
  intros Hws Hin.
  assert (Ha : Argument.argObj arg = inl (JObject [])).
  { simpl in Hin. destruct Hin as [<- | [<- | [<- | [<- | []]]]];
      [reflexivity | reflexivity | now apply argObj_whitespace | reflexivity]. }
  pose proof argObj_braces as Hb.
  split; [exact Ha |]. split; [| split; [| split]].
  - intros s c Hc.
    destruct (run_runCommand_invokes s c command arg _ Hc Ha) as (k & -> & _).
    reflexivity.
  - intros P s. cbv zeta. destruct (client s) as [c |] eqn:Hc.
    + rewrite (exec_runCommand_invokes P s c command arg _ Hc Ha).
      rewrite (exec_runCommand_invokes P s c command (Some "{}") _ Hc Hb).
      repeat split.
    + rewrite !(exec_runCommand_no_client P s command _ Hc). repeat split.
  - intros P flag s u HP.
    rewrite (runner_invokes P s command arg flag u _ HP Ha). cbn [trace].
    unfold Runner.echo. cbn [invocations].
    destruct (P (CallTool command (JObject []))); [| reflexivity].
    cbn [invocations]. destruct (P Close); reflexivity.
  - intros P flag s. cbv zeta.
    destruct (P (Connect Runner.headless)) as [u | error] eqn:HP.
    + rewrite (runner_invokes P s command arg flag u _ HP Ha).
      rewrite (runner_invokes P s command (Some "{}") flag u _ HP Hb).
      repeat split.
    + rewrite !(runner_connect_rejected P s command _ flag error HP). repeat split.
Qed.

Lemma blank_argument_is_empty_object_witness :
  Argument.argObj (Some "   ") = inl (JObject []) /\
  trace (run (Wrapper.runCommand "get_current_page" (Some "   ")) Samples.connected)
    = [console_log "get_current_page    "; call (CallTool "get_current_page" (JObject []))] /\
  invocations
    (trace (exec Samples.obliging
              (Runner.runCommand "get_current_page" (Some "   ") None) Samples.unconnected))
    = [("get_current_page", JObject [])].
Proof.
  destruct (blank_argument_is_empty_object "get_current_page" "   " (Some "   ") eq_refl)
    as (Ha & Hi & _ & Ho & _).
  - simpl. auto.
  - split; [exact Ha |]. split.
    + exact (Hi Samples.connected Wrapper.cli eq_refl).
    + exact (Ho Samples.obliging None Samples.unconnected tt eq_refl).
Defined.

(** C10.  In interactive mode an invocation attempted while no client is
    held writes [MCP server not available!] and prompts again, and does
    nothing else: whatever the argument is, well formed or not, it is not
    parsed (no error is reported), no call goes to the provider, the
    store is unchanged and the handler returns normally.  The same holds
    for every line the loop routes to an invocation. *)
Theorem invocation_without_client (s : store) :
  client s = None ->
  (forall (command : string) (arg : option string),
      run (Wrapper.runCommand command arg) s =
        {| final := s;
           trace := [console_log "MCP server not available!"; rl_prompt];
           how := Returned |}) /\
  (forall line : string,
      rl_closed s = false ->
      Wrapper.is_control (Js.trim line) = false ->
      Wrapper.is_dash_h (hd_error (tl (Js.split " " (Js.trim line)))) = false ->
      Wrapper.step (Wrapper.started s) (Wrapper.Line line) =
        (Wrapper.started s, [console_log "MCP server not available!"; rl_prompt])).
Proof.
  intros Hc. split.
  - intros command arg. now apply run_runCommand_no_client.
  - intros line Hopen Hctl Hh. unfold Wrapper.step, Wrapper.started.
    cbn [Wrapper.exit_code Wrapper.mem Wrapper.pending]. rewrite Hopen.
    rewrite (handleCommand_dispatch line Hctl). cbv zeta. rewrite Hh.
    rewrite (run_runCommand_no_client s _ _ Hc). reflexivity.
Qed.

Lemma invocation_without_client_witness :
  run (Wrapper.runCommand "get_current_page" (Some "not json")) Samples.unconnected =
    {| final := Samples.unconnected;
       trace := [console_log "MCP server not available!"; rl_prompt];
       how := Returned |} /\
  Wrapper.step (Wrapper.started Samples.unconnected) (Wrapper.Line "get_current_page {}") =
    (Wrapper.started Samples.unconnected,
     [console_log "MCP server not available!"; rl_prompt]).
Proof.
  destruct (invocation_without_client Samples.unconnected eq_refl) as [Hr Hl].
  split.
  - exact (Hr "get_current_page" (Some "not json")).
  - exact (Hl "get_current_page {}" eq_refl eq_refl eq_refl).
Defined.

(** C8.  A detail-help request, that is a line whose second piece is
    [-h], is answered from the registry alone: the handler returns
    without suspending, the store is unchanged, no call goes to the
    provider, nothing leaves the process, and the last thing done is to
    prompt again.  When the name, as [printCommandDetail] looks it up
    (trimmed), is not in the registry, the answer is the unknown-command
    notice followed by the full listing of the available commands; for a
    name without surrounding white space that is the name as typed.  With
    an empty registry the listing is its header. *)
Theorem detail_help_served_from_registry
    (line command : string) (rest : list string) (s : store) :
  Js.split " " (Js.trim line) = command :: "-h" :: rest ->
  let o := run (Wrapper.handleCommand line) s in
  how o = Returned /\
  final o = s /\
  (forall req : request, ~ In (call req) (trace o)) /\
  (forall code : nat, ~ In (process_exit code) (trace o)) /\
  (exists out, trace o = (out ++ [rl_prompt])%list) /\
  (~ In (Js.trim command) (COMMANDS (config s)) ->
   trace o = (console_log ("Unknown command: " ++ Js.trim command)
                :: Helpers.listing (config s) ++ [rl_prompt])%list) /\
  (Js.trim command = command ->
   ~ In command (COMMANDS (config s)) ->
   trace o = (console_log ("Unknown command: " ++ command)
                :: Helpers.listing (config s) ++ [rl_prompt])%list) /\
  (COMMANDS (config s) = [] ->
   trace o = [ console_log ("Unknown command: " ++ Js.trim command);
               console_log (Js.nl ++ "Available commands:");
               rl_prompt ]).
Proof.
  intros Hsplit. cbv zeta.
  pose proof (two_pieces_not_control _ _ _ _ Hsplit) as Hctl.
  assert (Hne : Js.trim line <> "").
  { intros E. rewrite E in Hsplit. discriminate Hsplit. }
  pose proof (command_not_blank line command _ Hne Hsplit) as Hcmd.
  rewrite (handleCommand_dispatch line Hctl). cbv zeta. rewrite Hsplit.
  cbn [tl hd hd_error Wrapper.is_dash_h]. change (String.eqb "-h" "-h") with true. cbv iota.
  destruct (run_printCommandDetail command s) as (out & Hrun & Hlogs & Hunknown).
  rewrite (run_seq_returned _ (emit rl_prompt) s s out Hrun).
  cbn [run emit emitted final trace how].
  assert (Hshape : forall ev, In ev (out ++ [rl_prompt]) -> is_console_log ev \/ ev = rl_prompt).
  { intros ev Hin. apply in_app_or in Hin as [Hin | [<- | []]]; [left | now right].
    rewrite Forall_forall in Hlogs. now apply Hlogs. }
  split; [reflexivity |]. split; [reflexivity |].
  split; [| split; [| split; [| split; [| split]]]].
  - intros req Hin. destruct (Hshape _ Hin) as [H | H]; [exact H | discriminate H].
  - intros code Hin. destruct (Hshape _ Hin) as [H | H]; [exact H | discriminate H].
  - now exists out.
  - intros Hnot. now rewrite (Hunknown Hcmd Hnot).
  - intros Hsame Hnot. rewrite Hsame in Hunknown, Hcmd. now rewrite (Hunknown Hcmd Hnot).
  - intros Hempty. rewrite (Hunknown Hcmd); [| now rewrite Hempty].
    unfold Helpers.listing. rewrite Hempty. reflexivity.
Qed.

Lemma detail_help_served_from_registry_witness :
  run (Wrapper.handleCommand "unknown_command -h") Samples.discovered =
    {| final := Samples.discovered;
       trace := [ console_log "Unknown command: unknown_command";
                  console_log (Js.nl ++ "Available commands:");
                  console_log "1. get_current_page: No description available";
                  console_log "2. navigate_page: No description available";
                  rl_prompt ];
       how := Returned |}.
Proof.
  destruct (detail_help_served_from_registry "unknown_command -h" "unknown_command" []
              Samples.discovered eq_refl) as (Hhow & Hfinal & _ & _ & _ & Hunknown & _ & _).
  destruct (run (Wrapper.handleCommand "unknown_command -h") Samples.discovered)
    as [f t h].
  cbn [how final trace] in *. rewrite Hhow, Hfinal, Hunknown; [reflexivity |].
  simpl. intros [H | [H | []]]; discriminate H.
Defined.

(** C4 fails on the code.  The interactive line
    [navigate_page {"pageId": "123:456"}] has the remainder
    [{"pageId": "123:456"}], a JSON object that the one-shot runner
    forwards to the provider whole.  The interactive handler splits the
    line at every space and passes on the second piece only, [{"pageId":],
    which does not parse: the line ends in a parse error and the provider
    is never invoked. *)
Theorem interactive_argument_cut_at_first_space :
  Argument.argObj (Some Samples.spaced_argument) = inl Samples.page_argument /\
  invocations
    (trace (exec Samples.obliging
              (Runner.runCommand "navigate_page" (Some Samples.spaced_argument) None)
              Samples.unconnected))
    = [("navigate_page", Samples.page_argument)] /\
  Wrapper.handleCommand ("navigate_page " ++ Samples.spaced_argument)
    = Wrapper.runCommand "navigate_page" (Some Samples.cut_argument) /\
  run (Wrapper.handleCommand ("navigate_page " ++ Samples.spaced_argument)) Samples.connected
    = {| final := Samples.connected;
         trace := [ console_log ("navigate_page " ++ Samples.cut_argument);
                    console_error [ Text "Error running command:";
                                    SyntaxErrorMessage Samples.cut_argument ];
                    rl_prompt ];
         how := Returned |}.
Proof.
  split; [reflexivity |]. split; [reflexivity |]. split; [| reflexivity].
  apply (handleCommand_passes_second_piece _ "navigate_page" Samples.cut_argument
           [String "034" "123:456" ++ Js.dquote ++ "}"]); reflexivity.
Qed.

(** ** The loop under two lines *)

Section LoopFacts.

(** A line read while the interface is open and the process alive
    starts its handler at once, whatever is pending: when it names a
    command with a well-formed argument, its invocation is issued and
    joins the pending ones. *)
Lemma line_dispatched_at_once (m : Wrapper.machine) (c : Client)
    (line : string) (o : json) :
  Wrapper.exit_code m = None ->
  rl_closed (Wrapper.mem m) = false ->
  client (Wrapper.mem m) = Some c ->
  Wrapper.is_control (Js.trim line) = false ->
  Wrapper.is_dash_h (hd_error (tl (Js.split " " (Js.trim line)))) = false ->
  Argument.argObj (hd_error (tl (Js.split " " (Js.trim line)))) = inl o ->
  let command := hd "" (Js.split " " (Js.trim line)) in
  let arg := hd_error (tl (Js.split " " (Js.trim line))) in
  let (m', out) := Wrapper.step m (Wrapper.Line line) in
  out = [Wrapper.echo command arg; call (CallTool command o)] /\
  Wrapper.mem m' = Wrapper.mem m /\
  Wrapper.exit_code m' = None /\
  map Wrapper.awaiting (Wrapper.pending m')
    = (map Wrapper.awaiting (Wrapper.pending m) ++ [CallTool command o])%list.
Proof.
  intros Hlive Hopen Hc Hctl Hh Ha. cbv zeta. unfold Wrapper.step.
  rewrite Hlive, Hopen, (handleCommand_dispatch line Hctl). cbv zeta. rewrite Hh.
  destruct (run_runCommand_invokes (Wrapper.mem m) c
              (hd "" (Js.split " " (Js.trim line))) _ o Hc Ha) as (k & Hrun & _).
  rewrite Hrun. unfold Wrapper.absorb. cbn [how final trace].
  cbn [Wrapper.mem Wrapper.exit_code Wrapper.pending].
  repeat split. rewrite map_app. reflexivity.
Qed.

End LoopFacts.

(** C9 fails on the code.  Two lines read one after the other, with no
    promise settled in between, both start their handlers: the second
    invocation is issued while the first is still awaited, and two
    invocations are pending at once.  The invocations are issued in the
    order of the lines; when the first to be issued settles last, its
    result is written after that of the second. *)
Theorem second_line_handled_before_first_settles :
  let (m, out) :=
    Wrapper.loop (Wrapper.started Samples.connected)
      [Wrapper.Line "get_current_page"; Wrapper.Line "get_selection {}"] in
  out = [ console_log "get_current_page";
          call (CallTool "get_current_page" (JObject []));
          console_log "get_selection {}";
          call (CallTool "get_selection" (JObject [])) ] /\
  map Wrapper.awaiting (Wrapper.pending m)
    = [ CallTool "get_current_page" (JObject []); CallTool "get_selection" (JObject []) ] /\
  Wrapper.exit_code m = None /\
  snd (Wrapper.loop m [ Wrapper.Settle 1 Samples.obliging; Wrapper.Settle 0 Samples.failing ])
    = [ console_log "{}"; rl_prompt;
        console_error [Text "Error running command:"; Text "Tool execution failed"];
        rl_prompt ].
Proof.
  repeat split.
Qed.

(** ** Where the remediation checklist is shown *)

Section ChecklistFacts.

Lemma shows_checklist_report (prefix : list event) (error : thrown) :
  Remediation.shows_checklist (prefix ++ Runner.report error) = true.
Proof.
  unfold Remediation.shows_checklist. rewrite !existsb_app.
  replace (existsb (Remediation.event_is Remediation.item1) (Runner.report error))
    with true by reflexivity.
  replace (existsb (Remediation.event_is Remediation.item2) (Runner.report error))
    with true by reflexivity.
  replace (existsb (Remediation.event_is Remediation.item3) (Runner.report error))
    with true by reflexivity.
  now rewrite !orb_true_r.
Qed.

Lemma exec_connect_rejected (P : provider) (s : store) (error : thrown) :
  P (Connect Wrapper.cli) = Rejected error ->
  exec P Wrapper.connect s =
    {| final := set_client (Some Wrapper.cli) s;
       trace := (call (Connect Wrapper.cli)
                   :: console_error [ Text "Failed to connect to Figma Desktop MCP server:";
                                      Value error ]
                   :: Remediation.checklist ++ [process_exit 1])%list;
       how := Exited 1 |}.
Proof.
  intros HP. unfold Wrapper.connect.
  cbn [Effects.seq try_catch modify emit await exec]. rewrite HP. reflexivity.
Qed.

End ChecklistFacts.

(** C7 (as amended).  The three checklist items are shown by every
    failing one-shot run, after the line [Error running command:] with
    the error's message, and by a failed connect in interactive mode,
    after the line that reports the failure; both then leave with status
    1.  A one-shot run that fails on a malformed argument shows the parse
    error's message and the checklist as well.  In interactive mode a
    failed discovery shows the warning only, and a failed invocation,
    malformed argument and provider failure alike, shows only the line
    [Error running command:] with the error's message before the next
    prompt. *)
Theorem checklist_where_shown (P : provider) (s : store) :
  (forall (command : string) (arg flag : option string),
      let o := exec P (Runner.runCommand command arg flag) s in
      (how o = Exited 0 /\ Remediation.shows_checklist (trace o) = false) \/
      (exists prefix error,
          how o = Exited 1 /\
          trace o = (prefix ++ Runner.report error)%list /\
          Remediation.shows_checklist (trace o) = true)) /\
  (forall (command a : string) (flag : option string) (u : unit),
      P (Connect Runner.headless) = Resolved u ->
      Argument.whitespace_only a = false ->
      Json.parse a = None ->
      trace (exec P (Runner.runCommand command (Some a) flag) s)
        = (Runner.echo command (Some a) flag :: call (Connect Runner.headless)
             :: console_error [Text "Error running command:"; SyntaxErrorMessage a]
             :: Remediation.checklist ++ [process_exit 1])%list) /\
  (forall error : thrown,
      P (Connect Wrapper.cli) = Rejected error ->
      let o := exec P Wrapper.connect s in
      how o = Exited 1 /\
      trace o = (call (Connect Wrapper.cli)
                   :: console_error [ Text "Failed to connect to Figma Desktop MCP server:";
                                      Value error ]
                   :: Remediation.checklist ++ [process_exit 1])%list) /\
  (forall (c : Client) (error : thrown),
      client s = Some c ->
      P ListTools = Rejected error ->
      let o := exec P Wrapper.discoverTools s in
      trace o = [ call ListTools;
                  console_warn [ Text "Warning: Could not discover tools from server:";
                                 Value error ] ] /\
      Remediation.shows_checklist (trace o) = false) /\
  (forall (c : Client) (command : string) (arg : option string) (error : thrown),
      client s = Some c ->
      Argument.argObj arg = inr error ->
      let o := exec P (Wrapper.runCommand command arg) s in
      trace o = [Wrapper.echo command arg; Wrapper.failure_line error; rl_prompt] /\
      Remediation.shows_checklist (trace o) = false) /\
  (forall (c : Client) (command : string) (arg : option string) (o : json) (error : thrown),
      client s = Some c ->
      Argument.argObj arg = inl o ->
      P (CallTool command o) = Rejected error ->
      let r := exec P (Wrapper.runCommand command arg) s in
      trace r = [ Wrapper.echo command arg; call (CallTool command o);
                  Wrapper.failure_line error; rl_prompt ] /\
      Remediation.shows_checklist (trace r) = false).
Proof.
  split; [| split; [| split; [| split; [| split]]]].
  - intros command arg flag. cbv zeta.
    destruct (P (Connect Runner.headless)) as [u | error] eqn:HP.
    + destruct (Argument.argObj arg) as [o | error] eqn:Ha.
      * rewrite (runner_invokes P s command arg flag u o HP Ha). cbn [how trace].
        destruct (P (CallTool command o)) as [result | error].
        -- destruct (P Close) as [u' | error].
           ++ left. split; reflexivity.
           ++ right.
              exists [ Runner.echo command arg flag; call (Connect Runner.headless);
                       call (CallTool command o); console_log result; call Close ], error.
              split; [reflexivity | split; [reflexivity |]].
              apply (shows_checklist_report
                       [ Runner.echo command arg flag; call (Connect Runner.headless);
                         call (CallTool command o); console_log result; call Close ]).
        -- right.
           exists [ Runner.echo command arg flag; call (Connect Runner.headless);
                    call (CallTool command o) ], error.
           split; [reflexivity | split; [reflexivity |]].
           apply (shows_checklist_report
                    [ Runner.echo command arg flag; call (Connect Runner.headless);
                      call (CallTool command o) ]).
      * rewrite (runner_parse_failed P s command arg flag u error HP Ha). cbn [how trace].
        right. exists [Runner.echo command arg flag; call (Connect Runner.headless)], error.
        split; [reflexivity | split; [reflexivity |]].
        apply (shows_checklist_report
                 [Runner.echo command arg flag; call (Connect Runner.headless)]).
    + rewrite (runner_connect_rejected P s command arg flag error HP). cbn [how trace].
      right. exists [Runner.echo command arg flag; call (Connect Runner.headless)], error.
      split; [reflexivity | split; [reflexivity |]].
      apply (shows_checklist_report
               [Runner.echo command arg flag; call (Connect Runner.headless)]).
  - intros command a flag u HP Hws Hp.
    assert (Ha : Argument.argObj (Some a) = inr (SyntaxError a)).
    { rewrite (argObj_parsed a Hws), Hp. reflexivity. }
    rewrite (runner_parse_failed P s command (Some a) flag u _ HP Ha). reflexivity.
  - intros error HP. cbv zeta. rewrite (exec_connect_rejected P s error HP).
    split; reflexivity.
  - intros c error Hc HP. cbv zeta.
    rewrite (exec_discoverTools_rejected P s c error Hc HP). split; reflexivity.
  - intros c command arg error Hc Ha. cbv zeta.
    rewrite (exec_runCommand_malformed P s c command arg error Hc Ha). split; reflexivity.
  - intros c command arg o error Hc Ha HP. cbv zeta.
    rewrite (exec_runCommand_invokes P s c command arg o Hc Ha), HP. split; reflexivity.
Qed.

Lemma checklist_where_shown_witness :
  trace (exec Samples.obliging
           (Runner.runCommand "get_current_page" (Some "invalid json") None)
           Samples.connected)
    = (console_log "get_current_page invalid json" :: call (Connect Runner.headless)
         :: console_error [Text "Error running command:"; SyntaxErrorMessage "invalid json"]
         :: Remediation.checklist ++ [process_exit 1])%list /\
  Remediation.shows_checklist
    (trace (exec Samples.obliging (Wrapper.runCommand "get_current_page" (Some "invalid json"))
              Samples.connected)) = false.
Proof.
  destruct (checklist_where_shown Samples.obliging Samples.connected)
    as (_ & Hparse & _ & _ & Hbad & _).
  split.
  - exact (Hparse "get_current_page" "invalid json" None tt eq_refl eq_refl eq_refl).
  - exact (proj2 (Hbad Wrapper.cli "get_current_page" (Some "invalid json")
                    (SyntaxError "invalid json") eq_refl eq_refl)).
Defined.

(** C7, as first stated, fails both ways: an interactive invocation that
    the provider fails, which is no parse failure, shows no checklist
    item, and neither does a failed discovery; a one-shot run that fails
    on a malformed argument shows all three. *)
Lemma checklist_claim_fails :
  exec Samples.failing (Wrapper.runCommand "get_current_page" None) Samples.connected
    = {| final := Samples.connected;
         trace := [ console_log "get_current_page";
                    call (CallTool "get_current_page" (JObject []));
                    console_error [Text "Error running command:"; Text "Tool execution failed"];
                    rl_prompt ];
         how := Returned |} /\
  Remediation.shows_checklist
    (trace (exec Samples.failing (Wrapper.runCommand "get_current_page" None)
              Samples.connected)) = false /\
  Remediation.shows_checklist
    (trace (exec Samples.undiscoverable Wrapper.discoverTools Samples.connected)) = false /\
  Remediation.shows_checklist
    (trace (exec Samples.obliging
              (Runner.runCommand "get_current_page" (Some "invalid json") None)
              Samples.unconnected)) = true.
Proof. repeat split. Qed.

(* ================================================================== *)
(** * Further properties of the code *)

(** ** Connecting *)

Section ConnectFacts.
Local Open Scope prog_scope.

Variable P : provider.

(** The command list the help screen shows for a registry. *)
Lemma exec_printHelp (s : store) :
  exec P Wrapper.printHelp s =
    {| final := s;
       trace := [ console_log
                    (Wrapper.help_text (package_version s)
                       match COMMANDS (config s) with
                       | [] => "No commands available (not connected)"
                       | names => Js.join ", " names
                       end) ];
       how := Returned |}.
Proof. reflexivity. Qed.

Lemma exec_connect_resolved (s : store) (u : unit) :
  P (Connect Wrapper.cli) = Resolved u ->
  exec P Wrapper.connect s =
    let s1 := set_client (Some Wrapper.cli) s in
    let d := exec P Wrapper.discoverTools s1 in
    {| final := final d;
       trace := (call (Connect Wrapper.cli) :: trace d
                   ++ trace (exec P Wrapper.printHelp (final d)))%list;
       how := Returned |}.
Proof.
  intros HP. unfold Wrapper.connect.
  cbn [Effects.seq try_catch modify emit await exec]. rewrite HP.
  rewrite exec_try_catch, exec_seq. cbv zeta.
  set (s1 := set_client (Some Wrapper.cli) s).
  destruct (P ListTools) as [tools | error] eqn:HL.
  - rewrite (exec_discoverTools_resolved P s1 Wrapper.cli tools eq_refl HL). reflexivity.
  - rewrite (exec_discoverTools_rejected P s1 Wrapper.cli error eq_refl HL). reflexivity.
Qed.

End ConnectFacts.

(** X1.  [connect] leaves the process only when the connection itself
    fails.  Once the connection is made, the function returns normally
    whatever discovery does: the client is held, nothing is written to
    leave the process, and the last thing written is the help screen for
    the registry as discovery left it, which reads [No commands
    available (not connected)] when that registry is empty.  The
    registry is what it was when the tool list could not be fetched, and
    what the loop over the tools built from empty arrays when the list
    arrived: the registry of exactly the tools received when the help of
    each could be rendered, and the entries pushed before the throw
    otherwise. *)
Theorem connect_returns_once_connected (P : provider) (s : store) (u : unit) :
  P (Connect Wrapper.cli) = Resolved u ->
  let o := exec P Wrapper.connect s in
  how o = Returned /\
  client (final o) = Some Wrapper.cli /\
  match P ListTools with
  | Resolved tools =>
      config (final o) = fst (Wrapper.refill tools Config.initial) /\
      forall details : list string,
        Wrapper.rendered tools = Some details ->
        config (final o) = Wrapper.registry_of tools details
  | Rejected _ => config (final o) = config s
  end /\
  (forall code : nat, ~ In (process_exit code) (trace o)) /\
  exists out,
    trace o =
      (out ++ [ console_log
                  (Wrapper.help_text (package_version s)
                     match COMMANDS (config (final o)) with
                     | [] => "No commands available (not connected)"
                     | names => Js.join ", " names
                     end) ])%list.
Proof.
  intros HP. cbv zeta. rewrite (exec_connect_resolved P s u HP). cbv zeta.
  set (s1 := set_client (Some Wrapper.cli) s).
  destruct (P ListTools) as [tools | error] eqn:HL.
  - rewrite (exec_discoverTools_resolved P s1 Wrapper.cli tools eq_refl HL).
    rewrite exec_printHelp. cbn [final trace how].
    split; [reflexivity |]. split; [reflexivity |]. split; [| split].
    + split; [reflexivity |]. intros details Hr.
      now rewrite (refill_rendered tools details Config.initial Hr).
    + intros code H. unfold Wrapper.discovered_banner in H. simpl in H.
      destruct (snd (Wrapper.refill tools Config.initial));
        destruct H as [H | [H | [H | [H | []]]]]; discriminate H.
    + eexists [call (Connect Wrapper.cli); call ListTools; _]. reflexivity.
  - rewrite (exec_discoverTools_rejected P s1 Wrapper.cli error eq_refl HL).
    rewrite exec_printHelp. cbn [final trace how].
    split; [reflexivity |]. split; [reflexivity |]. split; [reflexivity |]. split.
    + intros code H. simpl in H. destruct H as [H | [H | [H | [H | []]]]]; discriminate H.
    + exists [ call (Connect Wrapper.cli); call ListTools;
               console_warn [ Text "Warning: Could not discover tools from server:";
                              Value error ] ].
      reflexivity.
Qed.

Lemma connect_returns_once_connected_witness :
  how (exec Samples.misdeclaring Wrapper.connect Samples.unconnected) = Returned /\
  client (final (exec Samples.misdeclaring Wrapper.connect Samples.unconnected))
    = Some Wrapper.cli /\
  COMMANDS (config (final (exec Samples.misdeclaring Wrapper.connect Samples.unconnected)))
    = ["get_current_page"; "set_variable"].
Proof.
  destruct (connect_returns_once_connected Samples.misdeclaring Samples.unconnected tt
              eq_refl) as (Hh & Hc & [Hr _] & _).
  split; [exact Hh |]. split; [exact Hc |]. rewrite Hr. reflexivity.
Defined.

(** X2.  An invocation made after [connect] reaches the provider whether
    or not discovery succeeded: with the connection made and an argument
    that reads as JSON, connecting and then dispatching a command makes
    exactly one invocation, of that command with that argument. *)
Theorem invocation_after_connect
    (P : provider) (s : store) (u : unit) (command : string) (arg : option string)
    (o : json) :
  P (Connect Wrapper.cli) = Resolved u ->
  Argument.argObj arg = inl o ->
  invocations
    (trace (exec P (Effects.seq Wrapper.connect (Wrapper.runCommand command arg)) s))
    = [(command, o)].
Proof.
  intros HP Ha. rewrite exec_seq, (exec_connect_resolved P s u HP). cbv zeta.
  set (s1 := set_client (Some Wrapper.cli) s). cbn [how final trace].
  assert (Hinv : forall a b, invocations (a ++ b) = (invocations a ++ invocations b)%list).
  { induction a as [|ev a IH]; intros b; [reflexivity |]. simpl.
    destruct ev as [| | | | | | [] | |]; simpl; rewrite ?IH; reflexivity. }
  destruct (exec_discoverTools_returns P s1) as (_ & Hfinal & Hnone & _).
  set (d := exec P Wrapper.discoverTools s1) in *.
  assert (Hc : client (final d) = Some Wrapper.cli) by (now rewrite Hfinal).
  rewrite exec_printHelp. cbn [final trace how].
  rewrite (exec_runCommand_invokes P (final d) Wrapper.cli command arg o Hc Ha).
  cbn [trace]. rewrite Hinv. cbn [invocations]. rewrite Hinv, Hnone.
  unfold Wrapper.echo, Wrapper.failure_line.
  destruct (P (CallTool command o)); reflexivity.
Qed.

Lemma invocation_after_connect_witness :
  invocations
    (trace (exec Samples.undiscoverable
              (Effects.seq Wrapper.connect (Wrapper.runCommand "get_current_page" None))
              Samples.unconnected))
    = [("get_current_page", JObject [])].
Proof.
  exact (invocation_after_connect Samples.undiscoverable Samples.unconnected tt
           "get_current_page" None (JObject []) eq_refl eq_refl).
Defined.

(** ** The interactive dispatcher *)

(** X3.  The interactive dispatcher always hands control back to the
    loop: whatever the command, the argument, the store and the provider
    do, [runCommand] returns normally and leaves the store as it was,
    writes nothing that leaves the process, and prompts exactly once, as
    its last action. *)
Theorem interactive_dispatch_always_prompts
    (P : provider) (s : store) (command : string) (arg : option string) :
  let o := exec P (Wrapper.runCommand command arg) s in
  how o = Returned /\
  final o = s /\
  (forall code : nat, ~ In (process_exit code) (trace o)) /\
  exists out, trace o = (out ++ [rl_prompt])%list /\ ~ In rl_prompt out.
Proof.
  cbv zeta. destruct (client s) as [c |] eqn:Hc.
  - destruct (Argument.argObj arg) as [o | error] eqn:Ha.
    + rewrite (exec_runCommand_invokes P s c command arg o Hc Ha). cbn [how final trace].
      split; [reflexivity |]. split; [reflexivity |].
      unfold Wrapper.echo, Wrapper.failure_line.
      destruct (P (CallTool command o)) as [result | error]; split.
      * intros code H. simpl in H. destruct H as [H | [H | [H | [H | []]]]]; discriminate H.
      * exists [ console_log (Js.join " " (Js.filter_Boolean [Some command; arg]));
                 call (CallTool command o); console_log result ].
        split; [reflexivity |].
        intros H. simpl in H. destruct H as [H | [H | [H | []]]]; discriminate H.
      * intros code H. simpl in H. destruct H as [H | [H | [H | [H | []]]]]; discriminate H.
      * exists [ console_log (Js.join " " (Js.filter_Boolean [Some command; arg]));
                 call (CallTool command o);
                 console_error [Text "Error running command:"; Argument.errorMessage error] ].
        split; [reflexivity |].
        intros H. simpl in H. destruct H as [H | [H | [H | []]]]; discriminate H.
    + rewrite (exec_runCommand_malformed P s c command arg error Hc Ha). cbn [how final trace].
      split; [reflexivity |]. split; [reflexivity |].
      unfold Wrapper.echo, Wrapper.failure_line. split.
      * intros code H. simpl in H. destruct H as [H | [H | [H | []]]]; discriminate H.
      * exists [ console_log (Js.join " " (Js.filter_Boolean [Some command; arg]));
                 console_error [Text "Error running command:"; Argument.errorMessage error] ].
        split; [reflexivity |].
        intros H. simpl in H. destruct H as [H | [H | []]]; discriminate H.
  - rewrite (exec_runCommand_no_client P s command arg Hc). cbn [how final trace].
    split; [reflexivity |]. split; [reflexivity |]. split.
    + intros code H. simpl in H. destruct H as [H | [H | []]]; discriminate H.
    + exists [console_log "MCP server not available!"]. split; [reflexivity |].
      intros H. simpl in H. destruct H as [H | []]; discriminate H.
Qed.

(** X4.  The interactive dispatcher never consults the registry: what it
    writes and calls is the same whatever the registry holds, so a
    command that was never discovered is sent to the provider like any
    other.  The provider is invoked once, with the command name as given,
    when a client is held and the argument reads as JSON, and not at all
    otherwise. *)
Theorem interactive_dispatch_ignores_registry
    (P : provider) (s : store) (r : registry) (command : string) (arg : option string) :
  trace (exec P (Wrapper.runCommand command arg) (set_config r s))
    = trace (exec P (Wrapper.runCommand command arg) s) /\
  invocations (trace (exec P (Wrapper.runCommand command arg) s))
    = match client s, Argument.argObj arg with
      | Some _, inl o => [(command, o)]
      | _, _ => []
      end.
Proof.
  destruct (client s) as [c |] eqn:Hc.
  - assert (Hc' : client (set_config r s) = Some c) by exact Hc.
    destruct (Argument.argObj arg) as [o | error] eqn:Ha.
    + rewrite (exec_runCommand_invokes P s c command arg o Hc Ha).
      rewrite (exec_runCommand_invokes P _ c command arg o Hc' Ha).
      split; [reflexivity |]. cbn [trace]. unfold Wrapper.echo, Wrapper.failure_line.
      destruct (P (CallTool command o)); reflexivity.
    + rewrite (exec_runCommand_malformed P s c command arg error Hc Ha).
      rewrite (exec_runCommand_malformed P _ c command arg error Hc' Ha).
      split; reflexivity.
  - assert (Hc' : client (set_config r s) = None) by exact Hc.
    rewrite (exec_runCommand_no_client P s command arg Hc).
    rewrite (exec_runCommand_no_client P _ command arg Hc').
    split; reflexivity.
Qed.

(** ** The one-shot runner *)

Section RunnerFacts.

Variable P : provider.

(** The report of a failure holds no call to the provider. *)
Lemma report_has_no_call (error : thrown) (req : request) :
  ~ In (call req) (Runner.report error).
Proof.
  unfold Runner.report, Runner.failure_line, Remediation.checklist. simpl.
  intros H. repeat (destruct H as [H | H]; [discriminate H |]). exact H.
Qed.

End RunnerFacts.

(** X5.  The one-shot runner always leaves the process, with status 0 or
    1, and the status is 0 exactly when all four steps succeeded: the
    connection was made, the argument read as JSON, the invocation
    resolved and the client closed. *)
Theorem one_shot_exit_status
    (P : provider) (s : store) (command : string) (arg flag : option string) :
  let o := exec P (Runner.runCommand command arg flag) s in
  (how o = Exited 0 \/ how o = Exited 1) /\
  (how o = Exited 0 <->
   exists (u : unit) (v : json) (result : string) (u' : unit),
     P (Connect Runner.headless) = Resolved u /\
     Argument.argObj arg = inl v /\
     P (CallTool command v) = Resolved result /\
     P Close = Resolved u').
Proof.
  cbv zeta. destruct (P (Connect Runner.headless)) as [u | error] eqn:HP.
  - destruct (Argument.argObj arg) as [v | error] eqn:Ha.
    + rewrite (runner_invokes P s command arg flag u v HP Ha). cbn [how].
      destruct (P (CallTool command v)) as [result | error] eqn:HC.
      * destruct (P Close) as [u' | error] eqn:HX.
        -- split; [now left |]. split; [| reflexivity].
           intros _. exists u, v, result, u'. repeat split; assumption.
        -- split; [now right |]. split; [discriminate |].
           intros (u0 & v0 & r0 & u1 & _ & Hv & _ & H). discriminate H.
      * split; [now right |]. split; [discriminate |].
        intros (u0 & v0 & r0 & u1 & _ & Hv & H & _).
        injection Hv as <-. rewrite HC in H. discriminate H.
    + rewrite (runner_parse_failed P s command arg flag u error HP Ha). cbn [how].
      split; [now right |]. split; [discriminate |].
      intros (u0 & v0 & r0 & u1 & _ & Hv & _). discriminate Hv.
  - rewrite (runner_connect_rejected P s command arg flag error HP). cbn [how].
    split; [now right |]. split; [discriminate |].
    intros (u0 & v0 & r0 & u1 & H & _). discriminate H.
Qed.

(** X6.  The one-shot runner closes the client on the success path only:
    [close] is called exactly when the connection was made, the argument
    read as JSON and the invocation resolved.  After a failed invocation
    or a malformed argument the process is left with the connection still
    open. *)
Theorem one_shot_closes_only_after_result
    (P : provider) (s : store) (command : string) (arg flag : option string) :
  In (call Close) (trace (exec P (Runner.runCommand command arg flag) s)) <->
  exists (u : unit) (v : json) (result : string),
    P (Connect Runner.headless) = Resolved u /\
    Argument.argObj arg = inl v /\
    P (CallTool command v) = Resolved result.
Proof.
  destruct (P (Connect Runner.headless)) as [u | error] eqn:HP.
  - destruct (Argument.argObj arg) as [v | error] eqn:Ha.
    + rewrite (runner_invokes P s command arg flag u v HP Ha). cbn [trace].
      destruct (P (CallTool command v)) as [result | error] eqn:HC.
      * split.
        -- intros _. now exists u, v, result.
        -- intros _. unfold Runner.echo. simpl. auto 6.
      * split.
        -- unfold Runner.echo. intros H. simpl in H.
           destruct H as [H | [H | [H | H]]]; try discriminate H.
           now destruct (report_has_no_call error Close).
        -- intros (u0 & v0 & r0 & _ & Hv & H).
           injection Hv as <-. rewrite HC in H. discriminate H.
    + rewrite (runner_parse_failed P s command arg flag u error HP Ha). cbn [trace].
      split.
      * unfold Runner.echo. intros H. simpl in H.
        destruct H as [H | [H | H]]; try discriminate H.
        now destruct (report_has_no_call error Close).
      * intros (u0 & v0 & r0 & _ & Hv & _). discriminate Hv.
  - rewrite (runner_connect_rejected P s command arg flag error HP). cbn [trace].
    split.
    + unfold Runner.echo. intros H. simpl in H.
      destruct H as [H | [H | H]]; try discriminate H.
      now destruct (report_has_no_call error Close).
    + intros (u0 & v0 & r0 & H & _). discriminate H.
Qed.

(** X7.  The [flag] parameter of the one-shot runner is echoed and
    nothing more: two runs that differ in the flag only are the same
    after the first line written, and leave with the same status. *)
Theorem one_shot_flag_only_echoed
    (P : provider) (s : store) (command : string) (arg flag flag' : option string) :
  let o := exec P (Runner.runCommand command arg flag) s in
  let o' := exec P (Runner.runCommand command arg flag') s in
  hd_error (trace o) = Some (Runner.echo command arg flag) /\
  tl (trace o) = tl (trace o') /\
  how o = how o' /\
  final o = final o'.
Proof.
  cbv zeta. destruct (P (Connect Runner.headless)) as [u | error] eqn:HP.
  - destruct (Argument.argObj arg) as [v | error] eqn:Ha.
    + rewrite (runner_invokes P s command arg flag u v HP Ha).
      rewrite (runner_invokes P s command arg flag' u v HP Ha). repeat split.
    + rewrite (runner_parse_failed P s command arg flag u error HP Ha).
      rewrite (runner_parse_failed P s command arg flag' u error HP Ha). repeat split.
  - rewrite (runner_connect_rejected P s command arg flag error HP).
    rewrite (runner_connect_rejected P s command arg flag' error HP). repeat split.
Qed.

(** X8.  The one-shot runner works without the registry: it neither
    reads nor writes the store, so its run is the same from any store,
    and it never asks the provider for its tool list. *)
Theorem one_shot_needs_no_discovery
    (P : provider) (s s' : store) (command : string) (arg flag : option string) :
  let o := exec P (Runner.runCommand command arg flag) s in
  final o = s /\
  trace (exec P (Runner.runCommand command arg flag) s') = trace o /\
  ~ In (call ListTools) (trace o).
Proof.
  cbv zeta. destruct (P (Connect Runner.headless)) as [u | error] eqn:HP.
  - destruct (Argument.argObj arg) as [v | error] eqn:Ha.
    + rewrite (runner_invokes P s command arg flag u v HP Ha).
      rewrite (runner_invokes P s' command arg flag u v HP Ha). cbn [final trace].
      split; [reflexivity |]. split; [reflexivity |].
      unfold Runner.echo. intros H. simpl in H.
      destruct H as [H | [H | [H | H]]]; try discriminate H.
      destruct (P (CallTool command v)) as [result | error].
      * simpl in H. destruct H as [H | [H | H]]; try discriminate H.
        destruct (P Close) as [u' | error].
        -- simpl in H. destruct H as [H | []]. discriminate H.
        -- now destruct (report_has_no_call error ListTools).
      * now destruct (report_has_no_call error ListTools).
    + rewrite (runner_parse_failed P s command arg flag u error HP Ha).
      rewrite (runner_parse_failed P s' command arg flag u error HP Ha). cbn [final trace].
      split; [reflexivity |]. split; [reflexivity |].
      unfold Runner.echo. intros H. simpl in H.
      destruct H as [H | [H | H]]; try discriminate H.
      now destruct (report_has_no_call error ListTools).
  - rewrite (runner_connect_rejected P s command arg flag error HP).
    rewrite (runner_connect_rejected P s' command arg flag error HP). cbn [final trace].
    split; [reflexivity |]. split; [reflexivity |].
    unfold Runner.echo. intros H. simpl in H.
    destruct H as [H | [H | H]]; try discriminate H.
    now destruct (report_has_no_call error ListTools).
Qed.

(** X9.  The one-shot runner opens the connection before it reads the
    argument.  Every run starts with the echo and the connect call, also
    when the argument is malformed; and when the connection fails, the
    failure reported is the connection error whatever the argument is:
    the argument is not parsed and a malformed one goes unreported. *)
Theorem one_shot_connects_before_parsing
    (P : provider) (s : store) (command : string) (arg flag : option string) :
  (exists rest,
      trace (exec P (Runner.runCommand command arg flag) s)
        = Runner.echo command arg flag :: call (Connect Runner.headless) :: rest) /\
  (forall error : thrown,
      P (Connect Runner.headless) = Rejected error ->
      exec P (Runner.runCommand command arg flag) s =
        {| final := s;
           trace := Runner.echo command arg flag :: call (Connect Runner.headless)
                      :: Runner.report error;
           how := Exited 1 |}).
Proof.
  split.
  - destruct (P (Connect Runner.headless)) as [u | error] eqn:HP.
    + destruct (Argument.argObj arg) as [v | error] eqn:Ha.
      * rewrite (runner_invokes P s command arg flag u v HP Ha). cbn [trace].
        eexists. reflexivity.
      * rewrite (runner_parse_failed P s command arg flag u error HP Ha). cbn [trace].
        eexists. reflexivity.
    + rewrite (runner_connect_rejected P s command arg flag error HP). cbn [trace].
      eexists. reflexivity.
  - intros error HP. apply (runner_connect_rejected P s command arg flag error HP).
Qed.

Lemma one_shot_connects_before_parsing_witness :
  exec Samples.unreachable (Runner.runCommand "get_current_page" (Some "not json") None)
       Samples.unconnected =
    {| final := Samples.unconnected;
       trace := console_log "get_current_page not json" :: call (Connect Runner.headless)
                  :: Runner.report (Error "Connection failed");
       how := Exited 1 |}.
Proof.
  exact (proj2 (one_shot_connects_before_parsing Samples.unreachable Samples.unconnected
                  "get_current_page" (Some "not json") None)
           (Error "Connection failed") eq_refl).
Defined.

(** ** Lines of the interactive loop *)

(** X10.  A line of white space only (blanks, tabs, the empty line) is
    answered by a new prompt and nothing else: nothing is written, no
    call is made, the store is unchanged. *)
Theorem blank_line_only_prompts (line : string) (s : store) :
  Argument.whitespace_only line = true ->
  run (Wrapper.handleCommand line) s =
    {| final := s; trace := [rl_prompt]; how := Returned |}.
Proof.
  intros H. unfold Wrapper.handleCommand. rewrite (trim_whitespace line H). reflexivity.
Qed.

Lemma blank_line_only_prompts_witness :
  run (Wrapper.handleCommand (String "009" "   ")) Samples.connected =
    {| final := Samples.connected; trace := [rl_prompt]; how := Returned |}.
Proof.
  exact (blank_line_only_prompts (String "009" "   ") Samples.connected eq_refl).
Defined.

(** X11.  A line of two pieces or more is always a command line, and only
    its first two pieces count.  The control words are recognised as the
    whole trimmed line only, so [exit now] dispatches a command named
    [exit]; and two lines that agree on their first two pieces are handled
    alike, whatever follows. *)
Theorem line_handled_by_first_two_pieces
    (line line' command second : string) (rest rest' : list string) :
  Js.split " " (Js.trim line) = command :: second :: rest ->
  Js.split " " (Js.trim line') = command :: second :: rest' ->
  Wrapper.handleCommand line = Wrapper.handleCommand line' /\
  (String.eqb second "-h" = false ->
   Wrapper.handleCommand line = Wrapper.runCommand command (Some second)).
Proof.
  intros H H'.
  rewrite (handleCommand_dispatch line (two_pieces_not_control _ _ _ _ H)).
  rewrite (handleCommand_dispatch line' (two_pieces_not_control _ _ _ _ H')).
  cbv zeta. rewrite H, H'. cbn [tl hd hd_error Wrapper.is_dash_h].
  split; [reflexivity |]. intros Hh. now rewrite Hh.
Qed.

Lemma line_handled_by_first_two_pieces_witness :
  Wrapper.handleCommand "exit now please" = Wrapper.handleCommand "exit now" /\
  Wrapper.handleCommand "exit now please" = Wrapper.runCommand "exit" (Some "now").
Proof.
  destruct (line_handled_by_first_two_pieces "exit now please" "exit now" "exit" "now"
              ["please"] [] eq_refl eq_refl) as [Hsame Hrun].
  split; [exact Hsame | exact (Hrun eq_refl)].
Defined.

(** X12.  The words [exit], [quit] and [q], alone on the line, close the
    readline interface and neither prompt nor invoke anything.  With no
    client held the process is left at once with status 0.  With a client
    held, [close] is called on it and the handler waits: when the call
    resolves the process is left with status 0, and when it is rejected
    the rejection is thrown on, as no handler catches it. *)
Theorem exit_word_closes_and_leaves (line : string) (s : store) :
  In (Js.trim line) ["exit"; "quit"; "q"] ->
  rl_closed s = false ->
  match client s with
  | None =>
      run (Wrapper.handleCommand line) s =
        {| final := set_rl_closed true s;
           trace := [rl_close; process_exit 0];
           how := Exited 0 |}
  | Some _ =>
      exists k,
        run (Wrapper.handleCommand line) s =
          {| final := set_rl_closed true s;
             trace := [rl_close; call Close];
             how := Suspended Close k |} /\
        (forall (u : unit) (s' : store),
            run (k (Resolved u)) s' =
              {| final := s'; trace := [process_exit 0]; how := Exited 0 |}) /\
        (forall (error : thrown) (s' : store),
            run (k (Rejected error)) s' =
              {| final := s'; trace := []; how := Threw error |})
  end.
Proof.
  intros Hw Hopen.
  assert (E : Wrapper.handleCommand line = Wrapper.disconnect).
  { unfold Wrapper.handleCommand. simpl in Hw.
    destruct Hw as [<- | [<- | [<- | []]]]; reflexivity. }
  rewrite E. unfold Wrapper.disconnect, Wrapper.closing, Wrapper.on_close.
  cbn [Effects.seq emit run modify await]. rewrite Hopen.
  cbn [Effects.seq emit run modify await set_rl_closed client].
  destruct (client s) as [c |].
  - eexists. split; [reflexivity |]. split; reflexivity.
  - reflexivity.
Qed.

Lemma exit_word_closes_and_leaves_witness :
  run (Wrapper.handleCommand "  quit ") Samples.unconnected =
    {| final := set_rl_closed true Samples.unconnected;
       trace := [rl_close; process_exit 0];
       how := Exited 0 |}.
Proof.
  apply (exit_word_closes_and_leaves "  quit " Samples.unconnected).
  - simpl. auto.
  - reflexivity.
Defined.

(** X13.  At the end of the input, with a client held, the loop calls
    [close] on the client and, as soon as that call resolves, leaves the
    process with status 0.  It does not wait for the handlers that are
    still pending: an invocation in flight stays unanswered and its
    result is never written. *)
Theorem end_of_input_leaves_pending_behind (m : Wrapper.machine) (c : Client) :
  Wrapper.exit_code m = None ->
  rl_closed (Wrapper.mem m) = false ->
  client (Wrapper.mem m) = Some c ->
  let (m1, out1) := Wrapper.step m Wrapper.Eof in
  out1 = [call Close] /\
  Wrapper.exit_code m1 = None /\
  map Wrapper.awaiting (Wrapper.pending m1)
    = (map Wrapper.awaiting (Wrapper.pending m) ++ [Close])%list /\
  forall (P : provider) (u : unit),
    P Close = Resolved u ->
    let (m2, out2) := Wrapper.step m1 (Wrapper.Settle (length (Wrapper.pending m)) P) in
    out2 = [process_exit 0] /\
    Wrapper.exit_code m2 = Some 0 /\
    Wrapper.pending m2 = Wrapper.pending m.
Proof.
  intros Hlive Hopen Hc. unfold Wrapper.step at 1. rewrite Hlive.
  unfold Wrapper.closing, Wrapper.on_close. cbn [run]. rewrite Hopen.
  cbn [Effects.seq emit run modify await set_rl_closed client]. rewrite Hc.
  cbn [Effects.seq emit run modify await]. unfold Wrapper.absorb. cbn [how final trace].
  split; [reflexivity |]. split; [reflexivity |]. split.
  { cbn [Wrapper.pending]. rewrite map_app. reflexivity. }
  intros P u HP. unfold Wrapper.step. cbn [Wrapper.exit_code Wrapper.pending Wrapper.mem].
  rewrite nth_error_app2 by apply le_n. rewrite Nat.sub_diag. cbn [nth_error].
  cbn [Wrapper.awaiting Wrapper.resume]. rewrite HP. cbn [run].
  unfold Wrapper.absorb. cbn [how final trace Wrapper.pending Wrapper.exit_code].
  split; [reflexivity |]. split; [reflexivity |].
  unfold Wrapper.without.
  rewrite firstn_app, Nat.sub_diag, firstn_all. cbn [firstn].
  rewrite skipn_all2 by (rewrite length_app; simpl; lia).
  now rewrite !app_nil_r.
Qed.

Lemma end_of_input_leaves_pending_behind_witness :
  let m := fst (Wrapper.loop (Wrapper.started Samples.connected)
                  [Wrapper.Line "get_current_page"]) in
  let (m1, out1) := Wrapper.step m Wrapper.Eof in
  out1 = [call Close] /\
  let (m2, out2) := Wrapper.step m1 (Wrapper.Settle 1 Samples.obliging) in
  out2 = [process_exit 0] /\
  Wrapper.exit_code m2 = Some 0 /\
  map Wrapper.awaiting (Wrapper.pending m2) = [CallTool "get_current_page" (JObject [])].
Proof.
  intros m.
  pose proof (end_of_input_leaves_pending_behind m Wrapper.cli eq_refl eq_refl eq_refl) as H.
  destruct (Wrapper.step m Wrapper.Eof) as [m1 out1].
  destruct H as (H1 & _ & _ & H2). split; [exact H1 |].
  specialize (H2 Samples.obliging tt eq_refl).
  change (length (Wrapper.pending m)) with 1 in H2.
  destruct (Wrapper.step m1 (Wrapper.Settle 1 Samples.obliging)) as [m2 out2].
  destruct H2 as (Ho & He & Hpend). rewrite Hpend. repeat split; assumption.
Defined.

(** ** The registry after discovery *)

Section RegistryFacts.

Lemma info_not_empty (tool : Tool.t) : Wrapper.info tool <> "".
Proof.
  unfold Wrapper.info, Js.or_else. destruct (Tool.description tool) as [d |].
  - destruct (String.eqb_spec d "") as [_ | H]; [discriminate | exact H].
  - discriminate.
Qed.


End RegistryFacts.

(** X14.  After a discovery round whose tool list arrived, no
    description in the registry is empty.  When the help of every tool
    could be rendered, a tool that comes without a description, or with
    an empty one, is listed with [No description available] at its
    index. *)
Theorem discovered_descriptions_not_empty
    (P : provider) (s : store) (c : Client) (tools : list Tool.t) :
  client s = Some c ->
  P ListTools = Resolved tools ->
  let r := config (final (exec P Wrapper.discoverTools s)) in
  Forall (fun description => description <> "") (COMMANDS_INFO r) /\
  forall details : list string,
    Wrapper.rendered tools = Some details ->
    forall (i : nat) (tool : Tool.t),
      nth_error tools i = Some tool ->
      (Tool.description tool = None \/ Tool.description tool = Some "") ->
      nth_error (COMMANDS_INFO r) i = Some "No description available".
Proof.
  intros Hc HP. rewrite (exec_discoverTools_resolved P s c tools Hc HP).
  cbn [final config set_config]. split.
  - apply refill_info; [constructor | apply info_not_empty].
  - intros details Hr i tool Hi Hd.
    rewrite (refill_rendered tools details Config.initial Hr).
    cbn [fst COMMANDS_INFO Config.initial app].
    rewrite (map_nth_error _ _ _ Hi). f_equal.
    unfold Wrapper.info. destruct Hd as [-> | ->]; reflexivity.
Qed.

Lemma discovered_descriptions_not_empty_witness :
  Forall (fun description => description <> "")
    (COMMANDS_INFO (config (final (exec Samples.obliging Wrapper.discoverTools
                                     Samples.connected)))) /\
  nth_error
    (COMMANDS_INFO (config (final (exec Samples.obliging Wrapper.discoverTools
                                     Samples.connected)))) 1
    = Some "No description available".
Proof.
  destruct (discovered_descriptions_not_empty Samples.obliging Samples.connected
              Wrapper.cli Samples.tools eq_refl eq_refl) as [Hall Hat].
  split; [exact Hall |].
  refine (Hat _ eq_refl 1 Samples.navigate_page eq_refl _). now left.
Defined.

(** X15.  Discovery rounds do not accumulate.  Whatever a first round
    did, a second round whose tool list arrives leaves what its loop
    builds from empty arrays for the new tools alone: exactly the
    registry of the new tools when the help of each could be rendered,
    and otherwise the entries pushed before the throw.  A second round
    whose tool list cannot be fetched leaves what the first round left. *)
Theorem discovery_rounds_compose (P P' : provider) (s : store) (c : Client) :
  client s = Some c ->
  let s1 := final (exec P Wrapper.discoverTools s) in
  let r2 := config (final (exec P' Wrapper.discoverTools s1)) in
  match P' ListTools with
  | Resolved tools' =>
      r2 = fst (Wrapper.refill tools' Config.initial) /\
      forall details : list string,
        Wrapper.rendered tools' = Some details -> r2 = Wrapper.registry_of tools' details
  | Rejected _ => r2 = config s1
  end.
Proof.
  intros Hc. cbv zeta.
  destruct (exec_discoverTools_returns P s) as (_ & Hfinal & _).
  set (s1 := final (exec P Wrapper.discoverTools s)) in *.
  assert (Hc1 : client s1 = Some c) by (now rewrite Hfinal).
  destruct (P' ListTools) as [tools' | error] eqn:HP'.
  - rewrite (exec_discoverTools_resolved P' s1 c tools' Hc1 HP'). cbn [final config set_config].
    split; [reflexivity |]. intros details Hr.
    now rewrite (refill_rendered tools' details Config.initial Hr).
  - now rewrite (exec_discoverTools_rejected P' s1 c error Hc1 HP').
Qed.

Lemma discovery_rounds_compose_witness :
  config (final (exec Samples.misdeclaring Wrapper.discoverTools
                   (final (exec Samples.obliging Wrapper.discoverTools Samples.connected))))
    = fst (Wrapper.refill Samples.tools_with_null Config.initial) /\
  config (final (exec Samples.undiscoverable Wrapper.discoverTools
                   (final (exec Samples.obliging Wrapper.discoverTools Samples.connected))))
    = config Samples.discovered.
Proof.
  split.
  - exact (proj1 (discovery_rounds_compose Samples.obliging Samples.misdeclaring
                    Samples.connected Wrapper.cli eq_refl)).
  - exact (discovery_rounds_compose Samples.obliging Samples.undiscoverable
             Samples.connected Wrapper.cli eq_refl).
Defined.

(** ** The rendered help, further *)

(** X16.  An input shape whose [properties] are declared but empty (or
    nullish) gives an empty parameter list: [Parameters:] is followed by
    no line at all, not by [No parameters required], and the example is
    [<name> {}].  An input shape without [properties] is rendered as no
    input shape is. *)
Theorem detail_without_properties
    (name : string) (description : option string) (required : option (list string)) :
  let tool_with := fun properties =>
    {| Tool.name := name; Tool.description := description;
       Tool.inputSchema :=
         Some {| Schema.properties := properties; Schema.required := required |} |} in
  let bare := Js.nl ++ "Parameters:" ++ Js.nl
                ++ Js.nl ++ "Example:" ++ Js.nl ++ name ++ " {}" ++ Js.nl in
  Wrapper.detail (tool_with (Some (Some []))) = inl bare /\
  Wrapper.detail (tool_with (Some None)) = inl bare /\
  Wrapper.detail (tool_with None)
    = Wrapper.detail {| Tool.name := name; Tool.description := description;
                        Tool.inputSchema := None |}.
Proof.
  cbv zeta. unfold Wrapper.detail, Wrapper.example.
  cbn [Tool.inputSchema Tool.name Schema.properties Schema.required Wrapper.entries
       Wrapper.parameter_lines map].
  change (stringify (Wrapper.placeholders [])) with "{}".
  split; [| split]; try reflexivity; now rewrite !append_assoc.
Qed.



(** ** The example argument reads back *)

Section ExampleFacts.

Lemma code_units_app (a b : string) :
  Js.code_units (a ++ b) = (Js.code_units a ++ Js.code_units b)%list.
Proof.
  unfold Js.code_units. induction a as [|c a IH]; simpl; [reflexivity |].
  now rewrite IH.
Qed.

(** Reading an escaped character gives the character back. *)
Lemma lex_string_escape (c : ascii) (t acc : list N) :
  lex_string (Js.code_units (escape c) ++ t) acc = lex_string t (N_of_ascii c :: acc).
Proof.
  destruct c as [b0 b1 b2 b3 b4 b5 b6 b7].
  destruct b0, b1, b2, b3, b4, b5, b6, b7; reflexivity.
Qed.

(** Reading an escaped string up to the closing quote gives the string
    back. *)
Lemma lex_string_escape_all (k : string) (t acc : list N) :
  lex_string (Js.code_units (escape_all k) ++ 34%N :: t) acc
    = Some ((rev acc ++ Js.code_units k)%list, t).
Proof.
  revert acc. induction k as [|c k IH]; intros acc.
  - simpl. now rewrite app_nil_r.
  - cbn [escape_all]. rewrite code_units_app, <- app_assoc, lex_string_escape, IH.
    cbn [rev]. rewrite <- app_assoc. reflexivity.
Qed.

Lemma code_units_quote (k : string) (t : list N) :
  (Js.code_units (quote k) ++ t)%list
    = 34%N :: (Js.code_units (escape_all k) ++ 34%N :: t)%list.
Proof.
  unfold quote. rewrite !code_units_app, <- !app_assoc. reflexivity.
Qed.

(** A value parser with fuel reads a quoted string. *)
Lemma parse_value_quote (fuel : nat) (v : string) (t : list N) :
  parse_value (S fuel) (Js.code_units (quote v) ++ t)
    = Some (JString (Js.code_units v), t).
Proof.
  rewrite code_units_quote. cbn [parse_value skip_ws].
  change (is_ws 34) with false. cbv iota. unfold parse_token.
  change (34 =? 123)%N with false. change (34 =? 91)%N with false.
  change (34 =? 34)%N with true. cbv iota.
  now rewrite lex_string_escape_all.
Qed.

Lemma code_units_member (kv : string * string) (t : list N) :
  (Js.code_units (member_text kv) ++ t)%list
    = 34%N :: (Js.code_units (escape_all (fst kv))
                 ++ 34%N :: 58%N :: (Js.code_units (quote (snd kv)) ++ t))%list.
Proof.
  unfold member_text. rewrite !code_units_app, <- !app_assoc, code_units_quote.
  reflexivity.
Qed.

Lemma member_not_empty (kv : string * string) :
  1 <= length (Js.code_units (member_text kv)).
Proof.
  rewrite <- (app_nil_r (Js.code_units (member_text kv))), code_units_member.
  simpl. lia.
Qed.

Lemma members_length (o : record) :
  length o <= length (Js.code_units (Js.join "," (map member_text o))).
Proof.
  induction o as [|kv o IH]; [apply le_0_n |].
  destruct o as [|kv' o].
  - change (Js.join "," (map member_text [kv])) with (member_text kv).
    apply member_not_empty.
  - change (Js.join "," (map member_text (kv :: kv' :: o)))
      with (member_text kv ++ "," ++ Js.join "," (map member_text (kv' :: o))).
    rewrite !code_units_app, !length_app.
    pose proof (member_not_empty kv). simpl length in *. lia.
Qed.

(** The members an object text is made of are read up to its closing
    brace, one after the other. *)
Lemma parse_members_text (pv : list N -> option (json * list N)) :
  (forall v t, pv (Js.code_units (quote v) ++ t)%list
               = Some (JString (Js.code_units v), t)) ->
  forall (o : record) (fuel : nat) (acc : list (list N * json)) (t : list N),
    o <> [] ->
    length o <= fuel ->
    parse_members pv fuel acc
      (Js.code_units (Js.join "," (map member_text o)) ++ 125%N :: t)
      = Some (JObject (fold_left read_member o acc), t).
Proof.
  intros Hpv o. induction o as [|kv o IH]; intros fuel acc t Hne Hf; [contradiction |].
  destruct fuel as [|fuel]; [simpl in Hf; lia |].
  destruct o as [|kv' o].
  - change (Js.join "," (map member_text [kv])) with (member_text kv).
    rewrite code_units_member. cbn [parse_members skip_ws].
    change (is_ws 34) with false. cbv iota. change (34 =? 34)%N with true. cbv iota.
    rewrite lex_string_escape_all. cbn [rev app skip_ws].
    change (is_ws 58) with false. cbv iota. change (58 =? 58)%N with true. cbv iota.
    rewrite Hpv. cbn [skip_ws]. change (is_ws 125) with false. cbv iota.
    change (125 =? 44)%N with false. change (125 =? 125)%N with true. cbv iota.
    reflexivity.
  - change (Js.join "," (map member_text (kv :: kv' :: o)))
      with (member_text kv ++ "," ++ Js.join "," (map member_text (kv' :: o))).
    rewrite code_units_app, <- app_assoc, code_units_member.
    cbn [parse_members skip_ws].
    change (is_ws 34) with false. cbv iota. change (34 =? 34)%N with true. cbv iota.
    rewrite lex_string_escape_all. cbn [rev app skip_ws].
    change (is_ws 58) with false. cbv iota. change (58 =? 58)%N with true. cbv iota.
    rewrite Hpv. rewrite code_units_app, <- app_assoc.
    change (Js.code_units ",") with [44%N]. cbn [app skip_ws].
    change (is_ws 44) with false. cbv iota. change (44 =? 44)%N with true. cbv iota.
    rewrite IH; [reflexivity | discriminate | simpl in *; lia].
Qed.

(** [JSON.parse] reads back what [JSON.stringify] writes for an object of
    strings. *)
Lemma parse_stringify (o : record) :
  Json.parse (stringify o) = Some (JObject (fold_left read_member o [])).
Proof.
  unfold Json.parse, stringify.
  change (Js.join "," (map (fun kv => quote (fst kv) ++ ":" ++ quote (snd kv)) o))
    with (Js.join "," (map member_text o)).
  rewrite !code_units_app. change (Js.code_units "{") with [123%N].
  change (Js.code_units "}") with [125%N]. cbn [app].
  set (body := Js.code_units (Js.join "," (map member_text o))).
  cbn [parse_value skip_ws]. change (is_ws 123) with false. cbv iota.
  unfold parse_token. change (123 =? 123)%N with true. cbv iota.
  destruct o as [|kv o]; [reflexivity |].
  assert (Hbody : exists b, (body ++ [125%N])%list = 34%N :: b).
  { unfold body. destruct o as [|kv' o].
    - change (Js.join "," (map member_text [kv])) with (member_text kv).
      rewrite code_units_member. eexists. reflexivity.
    - change (Js.join "," (map member_text (kv :: kv' :: o)))
        with (member_text kv ++ "," ++ Js.join "," (map member_text (kv' :: o))).
      rewrite code_units_app, <- app_assoc, code_units_member. eexists. reflexivity. }
  destruct Hbody as [b Hb]. rewrite Hb. cbn [skip_ws].
  change (is_ws 34) with false. cbv iota. change (34 =? 125)%N with false. cbv iota.
  rewrite <- Hb.
  pose proof (parse_members_text
                (parse_value (length (123%N :: body ++ [125%N])))
                (parse_value_quote _) (kv :: o)
                (length (123%N :: body ++ [125%N])) [] []) as Hm.
  fold body in Hm. rewrite Hm; [reflexivity | discriminate |].
  pose proof (members_length (kv :: o)) as Hl. fold body in Hl.
  cbn [length]. rewrite length_app. simpl in *. lia.
Qed.

Lemma N_of_ascii_inj (a b : ascii) : N_of_ascii a = N_of_ascii b -> a = b.
Proof.
  intros H. rewrite <- (ascii_N_embedding a), <- (ascii_N_embedding b). now rewrite H.
Qed.

Lemma code_units_inj (a b : string) : Js.code_units a = Js.code_units b -> a = b.
Proof.
  unfold Js.code_units. revert b. induction a as [|x a IH]; intros [|y b] H;
    try discriminate H; [reflexivity |].
  simpl in H. injection H as Hx Hr. apply N_of_ascii_inj in Hx. apply IH in Hr.
  now subst.
Qed.

Lemma units_eqb_eq (a b : list N) : units_eqb a b = true -> a = b.
Proof.
  revert b. induction a as [|x a IH]; intros [|y b] H; try discriminate H; [reflexivity |].
  simpl in H. apply andb_true_iff in H as [Hx Hr]. apply N.eqb_eq in Hx.
  apply IH in Hr. now subst.
Qed.

(** A key that is not there yet is added at the end, on both sides. *)
Lemma with_property_fresh (key value : string) (o : record) :
  ~ In key (map fst o) -> with_property key value o = (o ++ [(key, value)])%list.
Proof.
  induction o as [|[k v] o IH]; intros H; [reflexivity |]. simpl in *.
  destruct (String.eqb_spec key k) as [-> | _]; [exfalso; auto |].
  rewrite IH; [reflexivity | auto].
Qed.

Lemma obj_set_fresh (k : string) (v : json) (acc : list (string * json)) :
  ~ In k (map fst acc) ->
  obj_set (Js.code_units k) v (map (fun kv => (Js.code_units (fst kv), snd kv)) acc)
    = map (fun kv => (Js.code_units (fst kv), snd kv)) (acc ++ [(k, v)]).
Proof.
  induction acc as [|[k' v'] acc IH]; intros H; [reflexivity |]. simpl in *.
  destruct (units_eqb (Js.code_units k) (Js.code_units k')) eqn:E.
  - apply units_eqb_eq, code_units_inj in E. exfalso. auto.
  - rewrite IH; [reflexivity | auto].
Qed.

Lemma placeholders_distinct (keys : list string) (acc : record) :
  NoDup keys ->
  (forall k, In k keys -> ~ In k (map fst acc)) ->
  fold_left (fun acc key => with_property key ("<" ++ key ++ ">") acc) keys acc
    = (acc ++ map (fun key => (key, ("<" ++ key ++ ">")%string)) keys)%list.
Proof.
  revert acc. induction keys as [|key keys IH]; intros acc Hnd Hfresh.
  - simpl. now rewrite app_nil_r.
  - inversion Hnd as [| ? ? Hnot Hnd']; subst. cbn [fold_left map].
    rewrite with_property_fresh by (apply Hfresh; now left).
    rewrite IH; [now rewrite <- app_assoc | exact Hnd' |].
    intros k Hk. rewrite map_app, in_app_iff. simpl.
    intros [H | [<- | []]]; [| contradiction].
    apply (Hfresh k); [now right | exact H].
Qed.

Lemma read_members_distinct (o : record) (acc : list (string * json)) :
  NoDup (map fst o) ->
  (forall k, In k (map fst o) -> ~ In k (map fst acc)) ->
  fold_left read_member o (map (fun kv => (Js.code_units (fst kv), snd kv)) acc)
    = map (fun kv => (Js.code_units (fst kv), snd kv))
        (acc ++ map (fun kv => (fst kv, JString (Js.code_units (snd kv)))) o).
Proof.
  revert acc. induction o as [|[k v] o IH]; intros acc Hnd Hfresh.
  - simpl. now rewrite app_nil_r.
  - cbn [map fst] in Hnd. inversion Hnd as [| ? ? Hnot Hnd']; subst.
    cbn [fold_left map]. unfold read_member at 2. cbn [fst snd].
    rewrite obj_set_fresh by (apply Hfresh; now left).
    rewrite IH; [now rewrite <- app_assoc | exact Hnd' |].
    intros k' Hk'. rewrite map_app, in_app_iff. simpl.
    intros [H | [<- | []]]; [| contradiction].
    apply (Hfresh k'); [now right | exact H].
Qed.

End ExampleFacts.

(** X18.  The example argument shown in the rendered help is well-formed
    JSON for every tool: whatever the keys of the declared properties
    are (quotes, backslashes and control characters included), the text
    after the tool name is read by the dispatchers as an object and never
    ends in a parse error. *)
Theorem example_argument_reads_back (tool : Tool.t) :
  exists members, Argument.argObj (Some (Wrapper.example tool)) = inl (JObject members).
Proof.
  assert (Hs : forall o, exists members,
               Argument.argObj (Some (stringify o)) = inl (JObject members)).
  { intros o. eexists.
    rewrite argObj_parsed; [now rewrite parse_stringify | reflexivity]. }
  unfold Wrapper.example. destruct (Tool.inputSchema tool) as [schema |].
  - destruct (Schema.properties schema) as [p |]; [apply Hs |].
    exists []. reflexivity.
  - exists []. reflexivity.
Qed.

(** X19.  For a tool whose property keys are distinct, as the keys of
    an object are, the example argument reads back as the object that
    has, in the order of the properties, one member per key [k], whose
    value is the string [<k>]. *)
Theorem example_argument_lists_the_keys
    (tool : Tool.t) (schema : Schema.t)
    (p : option (list (string * option Property.t))) :
  Tool.inputSchema tool = Some schema ->
  Schema.properties schema = Some p ->
  NoDup (map fst (Wrapper.entries p)) ->
  Argument.argObj (Some (Wrapper.example tool))
    = inl (JObject
             (map (fun key => (Js.code_units key, JString (Js.code_units ("<" ++ key ++ ">"))))
                  (map fst (Wrapper.entries p)))).
Proof.
  intros Hs Hp Hnd. unfold Wrapper.example. rewrite Hs, Hp.
  rewrite argObj_parsed by reflexivity. rewrite parse_stringify.
  unfold Wrapper.placeholders.
  rewrite (placeholders_distinct _ [] Hnd) by (intros k _ []).
  cbn [app]. set (keys := map fst (Wrapper.entries p)) in *.
  pose proof (read_members_distinct (map (fun key => (key, "<" ++ key ++ ">")) keys) []) as H.
  cbn [map app] in H. rewrite H.
  - rewrite !map_map. reflexivity.
  - rewrite map_map. cbn [fst]. now rewrite map_id.
  - intros k _ [].
Qed.

Lemma example_argument_lists_the_keys_witness :
  Argument.argObj (Some (Wrapper.example Samples.navigate_page))
    = inl (JObject [(Js.code_units "pageId", JString (Js.code_units "<pageId>"))]).
Proof.
  apply (example_argument_lists_the_keys Samples.navigate_page
           {| Schema.properties := Some (Some [("pageId", Some Samples.pageId)]);
              Schema.required := Some ["pageId"] |}
           (Some [("pageId", Some Samples.pageId)]) eq_refl eq_refl).
  simpl. constructor; [intros [] | constructor].
Defined.

(** ** Lines after discovery *)

(** X20.  After a successful discovery, one whose tool list arrived and
    that rendered the help of every tool, the lines [help] and [?] (white
    space around them allowed) show the help screen with the discovered
    names, joined by a comma and a space, and prompt, without any call to
    the provider.  When the provider has no tool at all the screen reads
    [No commands available (not connected)], although a client is held
    and discovery succeeded. *)
Theorem help_lists_discovered_names
    (P : provider) (s : store) (c : Client) (tools : list Tool.t)
    (details : list string) (line : string) :
  client s = Some c ->
  P ListTools = Resolved tools ->
  Wrapper.rendered tools = Some details ->
  In (Js.trim line) ["help"; "?"] ->
  exec P (Effects.seq Wrapper.discoverTools (Wrapper.handleCommand line)) s =
    {| final := set_config (Wrapper.registry_of tools details) s;
       trace := [ call ListTools;
                  Wrapper.discovered_banner tools;
                  console_log
                    (Wrapper.help_text (package_version s)
                       match tools with
                       | [] => "No commands available (not connected)"
                       | _ => Js.join ", " (map Tool.name tools)
                       end);
                  rl_prompt ];
       how := Returned |}.
Proof.
  intros Hc HP Hr Hw.
  assert (E : Wrapper.handleCommand line
              = Effects.seq Wrapper.printHelp (emit rl_prompt)).
  { unfold Wrapper.handleCommand. simpl in Hw.
    destruct Hw as [<- | [<- | []]]; reflexivity. }
  rewrite E, exec_seq, (exec_discoverTools_rendered P s c tools details Hc HP Hr).
  cbn [how final trace]. rewrite exec_seq, exec_printHelp. cbn [how final trace].
  destruct tools as [|tool tools]; reflexivity.
Qed.

Lemma help_lists_discovered_names_witness :
  exec Samples.obliging
       (Effects.seq Wrapper.discoverTools (Wrapper.handleCommand " ? ")) Samples.connected =
    {| final := Samples.discovered;
       trace := [ call ListTools;
                  Wrapper.discovered_banner Samples.tools;
                  console_log
                    (Wrapper.help_text "0.1.0" "get_current_page, navigate_page");
                  rl_prompt ];
       how := Returned |}.
Proof.
  refine (help_lists_discovered_names Samples.obliging Samples.connected Wrapper.cli
            Samples.tools _ " ? " eq_refl eq_refl eq_refl _).
  simpl. auto.
Defined.

(** X21.  A second space between the command and its argument drops the
    argument.  The piece between the two spaces is the empty string, and
    it is that piece the dispatcher receives: with a client held the
    command is echoed alone and invoked once with the empty object,
    whatever follows the second space, well-formed or not. *)
Theorem doubled_space_drops_argument
    (P : provider) (s : store) (c : Client) (line command : string) (rest : list string) :
  client s = Some c ->
  Js.split " " (Js.trim line) = command :: "" :: rest ->
  exec P (Wrapper.handleCommand line) s =
    {| final := s;
       trace := Wrapper.echo command None :: call (CallTool command (JObject []))
                  :: match P (CallTool command (JObject [])) with
                     | Resolved result => [console_log result; rl_prompt]
                     | Rejected error => [Wrapper.failure_line error; rl_prompt]
                     end;
       how := Returned |}.
Proof.
  intros Hc Hsplit.
  rewrite (handleCommand_passes_second_piece line command "" rest Hsplit eq_refl).
  exact (exec_runCommand_invokes P s c command (Some "") (JObject []) Hc eq_refl).
Qed.

Lemma doubled_space_drops_argument_witness :
  exec Samples.obliging (Wrapper.handleCommand "navigate_page  oops") Samples.connected =
    {| final := Samples.connected;
       trace := [ console_log "navigate_page";
                  call (CallTool "navigate_page" (JObject []));
                  console_log "{}";
                  rl_prompt ];
       how := Returned |}.
Proof.
  exact (doubled_space_drops_argument Samples.obliging Samples.connected Wrapper.cli
           "navigate_page  oops" "navigate_page" ["oops"] eq_refl eq_refl).
Defined.

(** ** The banner and the alignment of the registry *)

(** X22.  In a round whose tool list arrived, the names and the
    descriptions always have the same length, and the line [Discovered
    n tools] is written exactly when the rendered help has that length
    too; otherwise the warning is written and the rendered help is one
    entry short.  When the help of every tool could be rendered the
    banner is written, the three views have the length of the tool list,
    and at every index the name, the description and the rendered help
    are those of the tool at that index. *)
Theorem banner_certifies_alignment
    (P : provider) (s : store) (c : Client) (tools : list Tool.t) :
  client s = Some c ->
  P ListTools = Resolved tools ->
  let o := exec P Wrapper.discoverTools s in
  let r := config (final o) in
  length (COMMANDS_INFO r) = length (COMMANDS r) /\
  (In (Wrapper.discovered_banner tools) (trace o) <->
   length (COMMANDS_DETAIL r) = length (COMMANDS r)) /\
  (~ In (Wrapper.discovered_banner tools) (trace o) ->
   S (length (COMMANDS_DETAIL r)) = length (COMMANDS r) /\
   exists error,
     trace o = [ call ListTools;
                 console_warn [ Text "Warning: Could not discover tools from server:";
                                Value error ] ]) /\
  (forall details : list string,
      Wrapper.rendered tools = Some details ->
      In (Wrapper.discovered_banner tools) (trace o) /\
      length (COMMANDS r) = length tools /\
      forall (i : nat) (tool : Tool.t),
        nth_error tools i = Some tool ->
        nth_error (COMMANDS r) i = Some (Tool.name tool) /\
        nth_error (COMMANDS_INFO r) i = Some (Wrapper.info tool) /\
        exists text,
          nth_error (COMMANDS_DETAIL r) i = Some text /\ Wrapper.detail tool = inl text).
Proof.
  intros Hc HP. cbv zeta. rewrite (exec_discoverTools_resolved P s c tools Hc HP).
  cbn [final trace config set_config].
  destruct (refill_lengths tools Config.initial eq_refl eq_refl) as [Hinfo Hdetail].
  split; [exact Hinfo |].
  assert (Hwarn : forall error,
             ~ In (Wrapper.discovered_banner tools)
                  [ call ListTools;
                    console_warn [ Text "Warning: Could not discover tools from server:";
                                   Value error ] ]).
  { intros error H. unfold Wrapper.discovered_banner in H. simpl in H.
    destruct H as [H | [H | []]]; discriminate H. }
  split; [| split].
  - destruct (snd (Wrapper.refill tools Config.initial)) as [error |].
    + split; [intros H; now destruct (Hwarn error) | intros H; lia].
    + split; [intros _; exact Hdetail | intros _; simpl; auto].
  - destruct (snd (Wrapper.refill tools Config.initial)) as [error |].
    + intros _. split; [exact Hdetail | now exists error].
    + intros H. exfalso. apply H. simpl. auto.
  - intros details Hr. rewrite (refill_rendered tools details Config.initial Hr).
    cbn [fst snd COMMANDS COMMANDS_INFO COMMANDS_DETAIL Config.initial app].
    destruct (rendered_aligned tools details Hr) as [Hlen Hat].
    split; [simpl; auto |]. split; [apply length_map |].
    intros i tool Hi. split; [now apply map_nth_error |].
    split; [now apply map_nth_error |]. apply (Hat i tool Hi).
Qed.

Lemma banner_certifies_alignment_witness :
  let r := config (final (exec Samples.obliging Wrapper.discoverTools Samples.connected)) in
  length (COMMANDS r) = 2 /\
  nth_error (COMMANDS r) 1 = Some "navigate_page" /\
  nth_error (COMMANDS_INFO r) 1 = Some "No description available" /\
  exists text,
    nth_error (COMMANDS_DETAIL r) 1 = Some text /\
    Wrapper.detail Samples.navigate_page = inl text.
Proof.
  destruct (banner_certifies_alignment Samples.obliging Samples.connected Wrapper.cli
              Samples.tools eq_refl eq_refl) as (_ & _ & _ & Hall).
  destruct (Hall _ eq_refl) as (_ & Hlen & Hat).
  destruct (Hat 1 Samples.navigate_page eq_refl) as (Hn & Hi & Hd).
  split; [exact Hlen |]. split; [exact Hn |]. split; [exact Hi | exact Hd].
Defined.
